(** * A paper-thin fetch wrapper: [src/http/http.ts]

    The wrapper builds a URL, classifies and possibly encodes the body,
    issues one [fetch], decodes a JSON answer and packs the outcome into a
    discriminated union.  The host (URL parser, form-urlencoded serializer,
    [Number::toString], [JSON.stringify], [JSON.parse], [fetch]) is a
    parameter of the development: a [Platform].  What the file itself writes
    (the loop over [Object.entries], [URLSearchParams.set], object spread,
    the classification of the body, the shaping of the result) is modelled
    step by step. *)

From Stdlib Require Import String Ascii List ZArith Bool Lia.
From Stdlib Require Import DecimalString Floats.SpecFloat.
Import ListNotations.

Set Warnings "-register-all".
Local Open Scope string_scope.
Local Open Scope list_scope.

(* ================================================================= *)
(** ** JavaScript values *)

(** Host classes an [unknown] body may be an instance of.  [File] extends
    [Blob]; the other classes are unrelated to one another. *)
Inductive HostClass : Type :=
| FormData
| Blob
| File
| URLSearchParams
| ArrayBuffer
| ReadableStream
| HeadersClass
| AbortSignal.

Definition HostClass_eqb (c d : HostClass) : bool :=
  match c, d with
  | FormData, FormData | Blob, Blob | File, File
  | URLSearchParams, URLSearchParams | ArrayBuffer, ArrayBuffer
  | ReadableStream, ReadableStream | HeadersClass, HeadersClass
  | AbortSignal, AbortSignal => true
  | _, _ => false
  end.

Definition superclass (c : HostClass) : option HostClass :=
  match c with
  | File => Some Blob
  | _ => None
  end.

(** A JS number is an IEEE-754 binary64, kept as its sign, mantissa and
    exponent.  Plain objects and arrays list their own enumerable
    properties in enumeration order.  Host objects are opaque handles. *)
Inductive JsValue : Type :=
| JsUndefined
| JsNull
| JsBool (b : bool)
| JsNumber (n : spec_float)
| JsString (s : string)
| JsArray (elements : list JsValue)
| JsObject (properties : list (string * JsValue))
| JsHost (class : HostClass) (handle : nat).

Definition JsObj : Type := list (string * JsValue).

(** [v instanceof C]: the prototype chain of a host object holds its class
    and the classes it extends; no other value is an instance of a host
    class. *)
Definition instanceof (v : JsValue) (C : HostClass) : bool :=
  match v with
  | JsHost c _ =>
      HostClass_eqb c C
      || match superclass c with
         | Some s => HostClass_eqb s C
         | None => false
         end
  | _ => false
  end.

(** [v !== undefined]. *)
Definition is_defined (v : JsValue) : bool :=
  match v with
  | JsUndefined => false
  | _ => true
  end.

(** *** Own properties: lookup, definition, spread *)

Fixpoint obj_get (k : string) (o : JsObj) : option JsValue :=
  match o with
  | [] => None
  | (k', v) :: rest => if k' =? k then Some v else obj_get k rest
  end.

(** Defining a property that exists replaces its value where it stands;
    a new property goes last.  The list is kept in creation order: the
    place JavaScript gives to integer-like keys when it enumerates (first,
    ascending) is not modelled, and the statements below read objects
    through [obj_get], for which the order of distinct keys does not
    matter. *)
Fixpoint obj_set (k : string) (v : JsValue) (o : JsObj) : JsObj :=
  match o with
  | [] => [(k, v)]
  | (k', v') :: rest =>
      if k' =? k then (k, v) :: rest else (k', v') :: obj_set k v rest
  end.

(** [{ ...o, ...src }]: every own property of [src] is defined on [o], in
    order. *)
Definition obj_spread (src : JsObj) (o : JsObj) : JsObj :=
  fold_left (fun acc kv => obj_set (fst kv) (snd kv) acc) src o.

(** The rest element of an object pattern: the own properties whose key was
    not named by the pattern. *)
Definition obj_rest (named : list string) (o : JsObj) : JsObj :=
  filter (fun kv => negb (existsb (String.eqb (fst kv)) named)) o.

(** Array index [i] as a property key. *)
Definition index_key (i : nat) : string :=
  NilZero.string_of_uint (Nat.to_uint i).

(* ================================================================= *)
(** ** Completions and the calls an async function makes *)

Inductive JsError : Type :=
| TypeError (message : string)
| SyntaxError (message : string)
| DOMException (name : string).

Inductive Completion (A : Type) : Type :=
| Normal (value : A)
| Throw (reason : JsError).

Arguments Normal {A} value.
Arguments Throw {A} reason.

(* ================================================================= *)
(** ** URLs *)

(** A parsed URL: everything up to the path already serialized, the query
    and the fragment ([None] is the null of the URL standard), and the list
    of the associated [URLSearchParams] object. *)
Record URL : Type := mkURL {
  url_base : string;
  url_query : option string;
  url_fragment : option string;
  url_searchParams : list (string * string)
}.

(** [url.toString()], the URL serializer. *)
Definition URL_toString (u : URL) : string :=
  url_base u
  ++ match url_query u with Some q => "?" ++ q | None => "" end
  ++ match url_fragment u with Some f => "#" ++ f | None => "" end.

Definition remove_name (name : string) (l : list (string * string))
  : list (string * string) :=
  filter (fun nv => negb (fst nv =? name)) l.

(** The list operation of [URLSearchParams.set]: the first tuple named
    [name] takes the value and the others are removed; without such a
    tuple a new one is appended. *)
Fixpoint set_tuple (name value : string) (l : list (string * string))
  : list (string * string) :=
  match l with
  | [] => [(name, value)]
  | (n, v) :: rest =>
      if n =? name then (name, value) :: remove_name name rest
      else (n, v) :: set_tuple name value rest
  end.

(** Query parameter values as the [params] option types them. *)
Inductive ParamValue : Type :=
| PString (s : string)
| PNumber (n : spec_float)
| PBoolean (b : bool)
| PUndefined.

(** [Object.entries(params)], in enumeration order. *)
Definition Params : Type := list (string * ParamValue).

(* ================================================================= *)
(** ** Headers and responses *)

(** A [Headers] object: its header list. *)
Definition Headers : Type := list (string * string).

Definition lower_ascii (c : ascii) : ascii :=
  let n := nat_of_ascii c in
  if (65 <=? n)%nat && (n <=? 90)%nat then ascii_of_nat (n + 32) else c.

Fixpoint lower (s : string) : string :=
  match s with
  | EmptyString => EmptyString
  | String c s' => String (lower_ascii c) (lower s')
  end.

(** [headers.get(name)]: the values of the headers whose name matches
    case-insensitively, joined by a comma and a space; null without one. *)
Definition Headers_get (h : Headers) (name : string) : option string :=
  match filter (fun nv => lower (fst nv) =? lower name) h with
  | [] => None
  | found => Some (String.concat ", " (map snd found))
  end.

(** [s.includes(t)]. *)
Fixpoint includes (s t : string) : bool :=
  String.prefix t s
  || match s with
     | EmptyString => false
     | String _ s' => includes s' t
     end.

Module Response.

Record t : Type := mk {
  status : Z;
  statusText : string;
  headers : Headers;
  url : string;
  redirected : bool;
  body : string
}.

(** The [ok] getter: the status is an ok status, 200 to 299. *)
Definition ok (r : t) : bool :=
  (200 <=? status r)%Z && (status r <=? 299)%Z.

End Response.

(** [HeadersInit]: a record of strings, a list of name and value pairs, or
    a [Headers] object. *)
Inductive HeadersInit : Type :=
| HeadersRecord (entries : list (string * string))
| HeadersPairs (pairs : list (string * string))
| HeadersObject (h : Headers).

Fixpoint indexed {A : Type} (i : nat) (l : list A) : list (string * A) :=
  match l with
  | [] => []
  | x :: rest => (index_key i, x) :: indexed (S i) rest
  end.

(** What [...headers] copies: the own enumerable properties.  A record has
    its entries, an array its indices, a [Headers] object none (its list
    sits in an internal slot), and [undefined] none. *)
Definition own_properties (headers : option HeadersInit) : JsObj :=
  match headers with
  | None => []
  | Some (HeadersRecord entries) =>
      map (fun nv => (fst nv, JsString (snd nv))) entries
  | Some (HeadersPairs pairs) =>
      indexed 0
        (map (fun nv => JsArray [JsString (fst nv); JsString (snd nv)]) pairs)
  | Some (HeadersObject _) => []
  end.

(* ================================================================= *)
(** ** The host *)

Class Platform : Type := {
  (** [new URL(s)]; [None] when the URL parser fails, which the constructor
      turns into a [TypeError]. *)
  URL_parse : string -> option URL;
  (** The application/x-www-form-urlencoded serializer. *)
  urlencoded_serialize : list (string * string) -> string;
  (** [Number::toString] in radix 10. *)
  Number_toString : spec_float -> string;
  (** [JSON.stringify(v)]: a text, [undefined] ([None]) or an abrupt
      completion. *)
  JSON_stringify : JsValue -> Completion (option string);
  (** [JSON.parse] on the text of a body; [None] is its [SyntaxError]. *)
  JSON_parse : string -> option JsValue;
  (** The settlement of the promise [fetch(url, init)] returns. *)
  fetch : string -> JsObj -> Completion Response.t
}.

(** The platform calls an async function made until it settled, oldest
    first, and how it settled. *)
Inductive Event : Type :=
| FetchCall (url : string) (init : JsObj)
| JsonCall (response : Response.t).

Definition Async (A : Type) : Type := (list Event * Completion A)%type.

Definition ret {A : Type} (a : A) : Async A := ([], Normal a).

Definition bind {A B : Type} (m : Async A) (f : A -> Async B) : Async B :=
  match m with
  | (calls, Normal a) => let (calls', c) := f a in (calls ++ calls', c)
  | (calls, Throw e) => (calls, Throw e)
  end.

(** A synchronous step inside the async function: an abrupt completion
    rejects the promise. *)
Definition sync {A : Type} (c : Completion A) : Async A := ([], c).

Declare Scope async_scope.
Delimit Scope async_scope with async.
Notation "x <- m ;; k" := (bind m (fun x => k))
  (at level 100, m at next level, right associativity) : async_scope.

Definition calls {A : Type} (m : Async A) : list Event := fst m.
Definition settled {A : Type} (m : Async A) : Completion A := snd m.

Definition is_fetch (e : Event) : bool :=
  match e with
  | FetchCall _ _ => true
  | JsonCall _ => false
  end.

Definition fetch_calls (l : list Event) : list Event := filter is_fetch l.
Definition json_calls (l : list Event) : list Event :=
  filter (fun e => negb (is_fetch e)) l.

(* ================================================================= *)
(** ** The source: types *)

Inductive HttpMethod : Type := GET | POST | PUT | PATCH | DELETE.

Definition method_name (m : HttpMethod) : string :=
  match m with
  | GET => "GET"
  | POST => "POST"
  | PUT => "PUT"
  | PATCH => "PATCH"
  | DELETE => "DELETE"
  end.

(** [RequestOptions]: the three members the wrapper reads, and the other
    own properties of the object ([signal], [credentials], [cache], ...).
    An absent [body] reads as [undefined]. *)
Module RequestOptions.

Record t : Type := mk {
  params : option Params;
  body : JsValue;
  headers : option HeadersInit;
  others : JsObj
}.

(** [{}] *)
Definition empty : t := mk None JsUndefined None [].

(** [{ ...options, body }] *)
Definition with_body (options : option t) (b : JsValue) : t :=
  match options with
  | Some o => mk (params o) b (headers o) (others o)
  | None => mk None b None []
  end.

End RequestOptions.

(** [HttpResponse<T>]: the discriminated union of [HttpResponseSuccess<T>]
    ([ok: true]) and [HttpResponseError] ([ok: false]). *)
Inductive HttpResponse : Type :=
| HttpResponseSuccess (data : JsValue) (status : Z) (statusText : string)
    (headers : Headers) (response : Response.t)
| HttpResponseError (data : JsValue) (status : Z) (statusText : string)
    (headers : Headers) (response : Response.t).

Module HttpResponse.

Definition ok (r : HttpResponse) : bool :=
  match r with
  | HttpResponseSuccess _ _ _ _ _ => true
  | HttpResponseError _ _ _ _ _ => false
  end.

Definition data (r : HttpResponse) : JsValue :=
  match r with
  | HttpResponseSuccess d _ _ _ _ | HttpResponseError d _ _ _ _ => d
  end.

Definition status (r : HttpResponse) : Z :=
  match r with
  | HttpResponseSuccess _ s _ _ _ | HttpResponseError _ s _ _ _ => s
  end.

Definition statusText (r : HttpResponse) : string :=
  match r with
  | HttpResponseSuccess _ _ s _ _ | HttpResponseError _ _ s _ _ => s
  end.

Definition headers (r : HttpResponse) : Headers :=
  match r with
  | HttpResponseSuccess _ _ _ h _ | HttpResponseError _ _ _ h _ => h
  end.

Definition response (r : HttpResponse) : Response.t :=
  match r with
  | HttpResponseSuccess _ _ _ _ x | HttpResponseError _ _ _ _ x => x
  end.

End HttpResponse.

(* ================================================================= *)
(** ** The source: functions *)

Section Wrapper.

Context {host : Platform}.

(** [String(value)] on the values a parameter may have. *)
Definition String_ (value : ParamValue) : string :=
  match value with
  | PString s => s
  | PNumber n => Number_toString n
  | PBoolean true => "true"
  | PBoolean false => "false"
  | PUndefined => "undefined"
  end.

(** [url.searchParams.set(key, value)]: the list operation, then the
    update steps, which write the serialized list back as the query of the
    URL (null when the serialization is empty). *)
Definition searchParams_set (u : URL) (key value : string) : URL :=
  let l := set_tuple key value (url_searchParams u) in
  let serialized := urlencoded_serialize l in
  mkURL (url_base u)
        (if serialized =? "" then None else Some serialized)
        (url_fragment u)
        l.

(** The callback of the [forEach] in [buildUrl]. *)
Definition set_param (fullUrl : URL) (entry : string * ParamValue) : URL :=
  let (key, value) := entry in
  match value with
  | PUndefined => fullUrl
  | _ => searchParams_set fullUrl key (String_ value)
  end.

(** [fullUrl] once the [if (params)] block is through. *)
Definition with_params (fullUrl : URL) (params : option Params) : URL :=
  match params with
  | Some entries => fold_left set_param entries fullUrl
  | None => fullUrl
  end.

Definition buildUrl (path : string) (params : option Params)
  : Completion string :=
  match URL_parse path with
  | None => Throw (TypeError "Invalid URL")
  | Some fullUrl => Normal (URL_toString (with_params fullUrl params))
  end.

(** The constant [isJsonBody] of [request]. *)
Definition isJsonBody (body : JsValue) : bool :=
  is_defined body
  && negb (instanceof body FormData)
  && negb (instanceof body Blob).

(** [{ ...(isJsonBody && { 'Content-Type': 'application/json' }),
       ...headers }] *)
Definition merged_headers (body : JsValue) (headers : option HeadersInit)
  : JsObj :=
  obj_spread (own_properties headers)
    (obj_spread
       (if isJsonBody body
        then [("Content-Type", JsString "application/json")]
        else [])
       []).

(** [isJsonBody ? JSON.stringify(body) : (body as BodyInit)] *)
Definition final_body (body : JsValue) : Completion JsValue :=
  if isJsonBody body then
    match JSON_stringify body with
    | Normal (Some text) => Normal (JsString text)
    | Normal None => Normal JsUndefined
    | Throw e => Throw e
    end
  else Normal body.

(** The second argument of [fetch]. *)
Definition fetch_init (method : HttpMethod) (mergedHeaders : JsObj)
  (finalBody : JsValue) (fetchOptions : JsObj) : JsObj :=
  obj_spread fetchOptions
    [("method", JsString (method_name method));
     ("headers", JsObject mergedHeaders);
     ("body", finalBody)].

Definition await_fetch (url : string) (init : JsObj) : Async Response.t :=
  ([FetchCall url init], fetch url init).

(** [await response.json()] *)
Definition await_json (response : Response.t) : Async JsValue :=
  ([JsonCall response],
   match JSON_parse (Response.body response) with
   | Some v => Normal v
   | None => Throw (SyntaxError "Unexpected token")
   end).

(** [contentType?.includes('application/json')] *)
Definition claims_json (contentType : option string) : bool :=
  match contentType with
  | Some value => includes value "application/json"
  | None => false
  end.

(** The default parameter [options = {}]. *)
Definition default_options (options : option RequestOptions.t)
  : RequestOptions.t :=
  match options with
  | Some o => o
  | None => RequestOptions.empty
  end.

Definition request (method : HttpMethod) (path : string)
  (options : option RequestOptions.t) : Async HttpResponse :=
  let options := default_options options in
  let params := RequestOptions.params options in
  let body := RequestOptions.body options in
  let headers := RequestOptions.headers options in
  let fetchOptions :=
    obj_rest ["params"; "body"; "headers"] (RequestOptions.others options) in
  (url <- sync (buildUrl path params) ;;
   finalBody <- sync (final_body body) ;;
   response <- await_fetch url
     (fetch_init method (merged_headers body headers) finalBody
        fetchOptions) ;;
   let contentType := Headers_get (Response.headers response) "content-type" in
   data <- (if claims_json contentType
            then await_json response
            else ret JsNull) ;;
   if Response.ok response then
     ret (HttpResponseSuccess data (Response.status response)
            (Response.statusText response) (Response.headers response)
            response)
   else
     ret (HttpResponseError data (Response.status response)
            (Response.statusText response) (Response.headers response)
            response))%async.

(** The verb facade [http]. *)
Definition http_get (path : string) (options : option RequestOptions.t) :=
  request GET path options.

Definition http_post (path : string) (body : JsValue)
  (options : option RequestOptions.t) :=
  request POST path (Some (RequestOptions.with_body options body)).

Definition http_put (path : string) (body : JsValue)
  (options : option RequestOptions.t) :=
  request PUT path (Some (RequestOptions.with_body options body)).

Definition http_patch (path : string) (body : JsValue)
  (options : option RequestOptions.t) :=
  request PATCH path (Some (RequestOptions.with_body options body)).

Definition http_delete (path : string) (options : option RequestOptions.t) :=
  request DELETE path options.

End Wrapper.

(* ================================================================= *)
(** ** A small host to run the wrapper on

    URLs are absolute when they start with [http://] or [https://]; the
    query runs from the first [?] to the first [#].  Strings are byte
    strings, so the form-urlencoded serializer percent-encodes bytes. *)

Module Sample.

Definition is_alnum (c : ascii) : bool :=
  let n := nat_of_ascii c in
  ((48 <=? n) && (n <=? 57) || (65 <=? n) && (n <=? 90)
   || (97 <=? n) && (n <=? 122))%nat.

Definition urlencoded_safe (c : ascii) : bool :=
  is_alnum c || existsb (Ascii.eqb c) ["*"; "-"; "."; "_"]%char.

Definition hex_digit (n : nat) : ascii :=
  if (n <? 10)%nat then ascii_of_nat (48 + n) else ascii_of_nat (55 + n).

Fixpoint urlencode (s : string) : string :=
  match s with
  | EmptyString => EmptyString
  | String c s' =>
      if Ascii.eqb c " " then String "+" (urlencode s')
      else if urlencoded_safe c then String c (urlencode s')
      else
        let n := nat_of_ascii c in
        String "%" (String (hex_digit (Nat.div n 16))
                      (String (hex_digit (Nat.modulo n 16)) (urlencode s')))
  end.

Definition write_tuple (nv : string * string) : string :=
  (urlencode (fst nv) ++ String "=" (urlencode (snd nv)))%string.

Definition serialize (l : list (string * string)) : string :=
  String.concat "&" (map write_tuple l).

Definition hex_value (c : ascii) : option nat :=
  let n := nat_of_ascii c in
  if ((48 <=? n) && (n <=? 57))%nat then Some (n - 48)%nat
  else if ((65 <=? n) && (n <=? 70))%nat then Some (n - 55)%nat
  else if ((97 <=? n) && (n <=? 102))%nat then Some (n - 87)%nat
  else None.

Fixpoint urldecode (s : string) : string :=
  match s with
  | EmptyString => EmptyString
  | String c s' =>
      if Ascii.eqb c "+" then String " " (urldecode s')
      else
        match c, s' with
        | "%"%char, String h (String l s'') =>
            match hex_value h, hex_value l with
            | Some x, Some y =>
                String (ascii_of_nat (16 * x + y)) (urldecode s'')
            | _, _ => String c (urldecode s')
            end
        | _, _ => String c (urldecode s')
        end
  end.

(** The text before the first [sep], and the text after it if there is
    one. *)
Fixpoint cut (sep : ascii) (s : string) : string * option string :=
  match s with
  | EmptyString => (EmptyString, None)
  | String c s' =>
      if Ascii.eqb c sep then (EmptyString, Some s')
      else let (before, after) := cut sep s' in (String c before, after)
  end.

Fixpoint split (sep : ascii) (s : string) : list string :=
  match s with
  | EmptyString => [EmptyString]
  | String c s' =>
      if Ascii.eqb c sep then EmptyString :: split sep s'
      else
        match split sep s' with
        | first :: others => String c first :: others
        | [] => [String c EmptyString]
        end
  end.

Definition read_tuple (piece : string) : string * string :=
  let (name, value) := cut "=" piece in
  (urldecode name, match value with Some v => urldecode v | None => "" end).

Definition parse_query (q : string) : list (string * string) :=
  map read_tuple (filter (fun piece => negb (piece =? "")) (split "&" q)).

Definition parse_url (s : string) : option URL :=
  if String.prefix "http://" s || String.prefix "https://" s then
    let (beforeFragment, fragment) := cut "#" s in
    let (base, query) := cut "?" beforeFragment in
    Some (mkURL base query fragment
            (match query with Some q => parse_query q | None => [] end))
  else None.

(** Decimal digits of a number: the exact expansion of [m * 2^e]. *)
Definition decimal (z : Z) : string := NilZero.string_of_int (Z.to_int z).

Fixpoint fraction_digits (k : nat) (r scale : Z) : string :=
  match k with
  | O => EmptyString
  | S k' =>
      if (r =? 0)%Z then EmptyString
      else
        let r10 := (r * 10)%Z in
        (decimal (r10 / scale) ++ fraction_digits k' (r10 mod scale) scale)%string
  end.

Definition number_to_string (n : spec_float) : string :=
  match n with
  | S754_nan => "NaN"
  | S754_infinity false => "Infinity"
  | S754_infinity true => "-Infinity"
  | S754_zero _ => "0"
  | S754_finite s m e =>
      let sign := if s then "-" else "" in
      if (0 <=? e)%Z then (sign ++ decimal (Zpos m * 2 ^ e))%string
      else
        let scale := (2 ^ (- e))%Z in
        let whole := (Zpos m / scale)%Z in
        let r := (Zpos m mod scale)%Z in
        if (r =? 0)%Z then (sign ++ decimal whole)%string
        else
          (sign ++ decimal whole ++ "."
           ++ fraction_digits (Z.to_nat (- e)) r scale)%string
  end.

Definition dquote : ascii := ascii_of_nat 34.
Definition backslash : ascii := ascii_of_nat 92.

Fixpoint escape (s : string) : string :=
  match s with
  | EmptyString => EmptyString
  | String c s' =>
      if Ascii.eqb c dquote || Ascii.eqb c backslash
      then String backslash (String c (escape s'))
      else String c (escape s')
  end.

Definition quote (s : string) : string :=
  String dquote (escape s ++ String dquote EmptyString).

(** [JSON.stringify] on the values of [JsValue]; a host object has no own
    enumerable property. *)
Fixpoint stringify (v : JsValue) : option string :=
  match v with
  | JsUndefined => None
  | JsNull => Some "null"
  | JsBool true => Some "true"
  | JsBool false => Some "false"
  | JsNumber n =>
      Some match n with
           | S754_nan | S754_infinity _ => "null"
           | _ => number_to_string n
           end
  | JsString s => Some (quote s)
  | JsArray elements =>
      let texts :=
        (fix each (l : list JsValue) : list string :=
           match l with
           | [] => []
           | x :: rest =>
               match stringify x with
               | Some t => t
               | None => "null"
               end :: each rest
           end) elements in
      Some ("[" ++ String.concat "," texts ++ "]")%string
  | JsObject properties =>
      let texts :=
        (fix each (l : list (string * JsValue)) : list string :=
           match l with
           | [] => []
           | (k, x) :: rest =>
               match stringify x with
               | Some t => (quote k ++ ":" ++ t)%string :: each rest
               | None => each rest
               end
           end) properties in
      Some ("{" ++ String.concat "," texts ++ "}")%string
  | JsHost _ _ => Some "{}"
  end.

(** A reader for the JSON texts the sample server sends: the three
    literals, unsigned integers, strings without escapes, arrays and
    objects.  Anything else is a syntax error. *)
Fixpoint skip_ws (s : string) : string :=
  match s with
  | String c s' =>
      if existsb (Nat.eqb (nat_of_ascii c)) [32; 9; 10; 13]%nat
      then skip_ws s' else s
  | EmptyString => EmptyString
  end.

Fixpoint drop (n : nat) (s : string) : string :=
  match n, s with
  | S n', String _ s' => drop n' s'
  | _, _ => s
  end.

Fixpoint take_string (s : string) : option (string * string) :=
  match s with
  | EmptyString => None
  | String c s' =>
      if Ascii.eqb c dquote then Some (EmptyString, s')
      else if Ascii.eqb c backslash then None
      else
        match take_string s' with
        | Some (text, rest) => Some (String c text, rest)
        | None => None
        end
  end.

Definition digit_value (c : ascii) : option Z :=
  let n := nat_of_ascii c in
  if ((48 <=? n) && (n <=? 57))%nat then Some (Z.of_nat (n - 48)) else None.

Fixpoint take_digits (s : string) (acc : Z) : Z * string :=
  match s with
  | EmptyString => (acc, s)
  | String c s' =>
      match digit_value c with
      | Some d => take_digits s' (10 * acc + d)%Z
      | None => (acc, s)
      end
  end.

Definition number_of_Z (z : Z) : spec_float :=
  match z with
  | Z0 => S754_zero false
  | Zpos m => S754_finite false m 0
  | Zneg m => S754_finite true m 0
  end.

Fixpoint parse_value (fuel : nat) (s : string) : option (JsValue * string) :=
  match fuel with
  | O => None
  | S fuel' =>
      let s := skip_ws s in
      if String.prefix "null" s then Some (JsNull, drop 4 s)
      else if String.prefix "true" s then Some (JsBool true, drop 4 s)
      else if String.prefix "false" s then Some (JsBool false, drop 5 s)
      else
        match s with
        | EmptyString => None
        | String c rest =>
            if Ascii.eqb c dquote then
              match take_string rest with
              | Some (text, rest') => Some (JsString text, rest')
              | None => None
              end
            else if Ascii.eqb c "[" then
              match skip_ws rest with
              | String "]" rest' => Some (JsArray [], rest')
              | _ =>
                  match parse_elements fuel' rest with
                  | Some (vs, rest') => Some (JsArray vs, rest')
                  | None => None
                  end
              end
            else if Ascii.eqb c "{" then
              match skip_ws rest with
              | String "}" rest' => Some (JsObject [], rest')
              | _ =>
                  match parse_members fuel' rest with
                  | Some (ps, rest') =>
                      Some (JsObject (obj_spread ps []), rest')
                  | None => None
                  end
              end
            else
              match digit_value c with
              | Some _ =>
                  let (z, rest') := take_digits s 0 in
                  Some (JsNumber (number_of_Z z), rest')
              | None => None
              end
        end
  end

with parse_elements (fuel : nat) (s : string)
  : option (list JsValue * string) :=
  match fuel with
  | O => None
  | S fuel' =>
      match parse_value fuel' s with
      | Some (v, rest) =>
          match skip_ws rest with
          | String "," rest' =>
              match parse_elements fuel' rest' with
              | Some (vs, rest'') => Some (v :: vs, rest'')
              | None => None
              end
          | String "]" rest' => Some ([v], rest')
          | _ => None
          end
      | None => None
      end
  end

with parse_members (fuel : nat) (s : string) : option (JsObj * string) :=
  match fuel with
  | O => None
  | S fuel' =>
      match skip_ws s with
      | String c rest =>
          if Ascii.eqb c dquote then
            match take_string rest with
            | Some (key, rest1) =>
                match skip_ws rest1 with
                | String ":" rest2 =>
                    match parse_value fuel' rest2 with
                    | Some (v, rest3) =>
                        match skip_ws rest3 with
                        | String "," rest4 =>
                            match parse_members fuel' rest4 with
                            | Some (ps, rest5) => Some ((key, v) :: ps, rest5)
                            | None => None
                            end
                        | String "}" rest4 => Some ([(key, v)], rest4)
                        | _ => None
                        end
                    | None => None
                    end
                | _ => None
                end
            | None => None
            end
          else None
      | EmptyString => None
      end
  end.

Definition parse_json (text : string) : option JsValue :=
  match parse_value (2 * String.length text + 2) text with
  | Some (v, rest) =>
      match skip_ws rest with
      | EmptyString => Some v
      | _ => None
      end
  | None => None
  end.

(** The sample server. *)
Definition user : JsValue :=
  JsObject [("id", JsNumber (number_of_Z 1)); ("name", JsString "Alice");
            ("email", JsString "a@x.com")].

Definition errors : JsValue :=
  JsArray [JsObject [("field", JsString "name");
                     ("message", JsString "required")]].

Definition text_of (v : JsValue) : string :=
  match stringify v with
  | Some text => text
  | None => EmptyString
  end.

Definition broken (url : string) : Response.t :=
  Response.mk 500 "Internal Server Error"
    [("Content-Type", "application/json")] url false "<html>".

Definition no_content (url : string) : Response.t :=
  Response.mk 204 "No Content" [] url false EmptyString.

Definition unprocessable (url : string) : Response.t :=
  Response.mk 422 "Unprocessable Entity"
    [("content-type", "application/json; charset=utf-8")] url false
    (text_of errors).

Definition not_found (url : string) : Response.t :=
  Response.mk 404 "Not Found" [("content-type", "text/plain")] url false
    "Not Found".

Definition created (url : string) : Response.t :=
  Response.mk 201 "Created" [("content-type", "application/json")] url false
    (text_of user).

Definition listing (url : string) : Response.t :=
  Response.mk 200 "OK" [("content-type", "application/json")] url false
    (text_of (JsArray [user])).

Definition server (url : string) (init : JsObj) : Completion Response.t :=
  if includes url "/down" then Throw (TypeError "Failed to fetch")
  else if includes url "/broken" then Normal (broken url)
  else if includes url "/empty" then Normal (no_content url)
  else if includes url "/invalid" then Normal (unprocessable url)
  else if includes url "/missing" then Normal (not_found url)
  else
    match obj_get "method" init with
    | Some (JsString "POST") => Normal (created url)
    | _ => Normal (listing url)
    end.

Definition host : Platform := {|
  URL_parse := parse_url;
  urlencoded_serialize := serialize;
  Number_toString := number_to_string;
  JSON_stringify := fun v => Normal (stringify v);
  JSON_parse := parse_json;
  fetch := server
|}.

(** Whether a character occurs in a string. *)
Fixpoint occurs (x : ascii) (s : string) : bool :=
  match s with
  | EmptyString => false
  | String c s' => Ascii.eqb c x || occurs x s'
  end.

(** The URL records the sample parser gives and the sets keep: the base
    is absolute and holds no delimiter, the query holds no [#], and the
    list is the parsed query. *)
Definition well_formed (u : URL) : Prop :=
  (String.prefix "http://" (url_base u) || String.prefix "https://" (url_base u)
   = true)
  /\ occurs "?" (url_base u) = false
  /\ occurs "#" (url_base u) = false
  /\ match url_query u with
     | Some q => occurs "#" q = false /\ url_searchParams u = parse_query q
     | None => url_searchParams u = []
     end.

(** Inputs the statements are run on. *)
Definition users_url : string := "https://api.example.com/users?x=1#top".

Definition users_parsed : URL :=
  mkURL "https://api.example.com/users" (Some "x=1") (Some "top") [("x", "1")].

Definition users_params : Params :=
  [("role", PString "admin"); ("skip", PUndefined);
   ("active", PBoolean true); ("page", PNumber (number_of_Z 2))].

Definition bob : JsValue := JsObject [("name", JsString "Bob")].

Definition post_bob : option RequestOptions.t :=
  Some (RequestOptions.mk None bob None []).

Definition passing : RequestOptions.t :=
  RequestOptions.mk (Some users_params) bob None
    [("signal", JsHost AbortSignal 0); ("credentials", JsString "include");
     ("cache", JsString "no-store")].

Definition filter_params : Params :=
  [("role", PString "admin"); ("active", PBoolean true)].

Definition composed_url : string :=
  "https://api.example.com/users?x=1&role=admin&active=true&page=2#top".

Definition passing_init : JsObj :=
  [("method", JsString "PUT");
   ("headers", JsObject [("Content-Type", JsString "application/json")]);
   ("body", JsString (text_of bob));
   ("signal", JsHost AbortSignal 0); ("credentials", JsString "include");
   ("cache", JsString "no-store")].


Definition plain_init (method : string) : JsObj :=
  [("method", JsString method); ("headers", JsObject []);
   ("body", JsUndefined)].

End Sample.

(* ================================================================= *)
(** ** Vocabulary of the statements *)

(** The entries of [params] that pass [value !== undefined], with the
    string that is set for each. *)
Definition defined_entries {host : Platform} (p : Params)
  : list (string * string) :=
  flat_map (fun kv =>
              match snd kv with
              | PUndefined => []
              | v => [(fst kv, String_ v)]
              end) p.

Definition no_absent (p : Params) : Prop :=
  forall k v, In (k, v) p -> v <> PUndefined.

(** One [set] after the other on a list of tuples. *)
Definition apply_sets (entries l : list (string * string))
  : list (string * string) :=
  fold_left (fun acc kv => set_tuple (fst kv) (snd kv) acc) entries l.

(** The tuples of a list that carry a given name. *)
Definition named (name : string) (l : list (string * string))
  : list (string * string) :=
  filter (fun nv => fst nv =? name) l.

(** The value the last entry for [name] carries. *)
Fixpoint last_value (name : string) (entries : list (string * string))
  : option string :=
  match entries with
  | [] => None
  | (n, v) :: rest =>
      match last_value name rest with
      | Some w => Some w
      | None => if n =? name then Some v else None
      end
  end.

(** Every tuple named by an entry takes the value of the last such
    entry; the list keeps its names and their order. *)
Definition override (entries l : list (string * string))
  : list (string * string) :=
  map (fun nv =>
         match last_value (fst nv) entries with
         | Some v => (fst nv, v)
         | None => nv
         end) l.

(** The query a [set] leaves on the URL. *)
Definition query_of {host : Platform} (l : list (string * string))
  : option string :=
  let serialized := urlencoded_serialize l in
  if serialized =? "" then None else Some serialized.

(** The request reached the transport: the URL was composed, the body was
    encoded, and [fetch] was called with [url] and [init]. *)
Definition dispatched {host : Platform} (method : HttpMethod)
  (path : string) (options : option RequestOptions.t)
  (url : string) (init : JsObj) : Prop :=
  let o := default_options options in
  exists finalBody,
    buildUrl path (RequestOptions.params o) = Normal url
    /\ final_body (RequestOptions.body o) = Normal finalBody
    /\ init = fetch_init method
                (merged_headers (RequestOptions.body o)
                   (RequestOptions.headers o))
                finalBody
                (obj_rest ["params"; "body"; "headers"]
                   (RequestOptions.others o)).

(** The transport answered the request with the response [r]. *)
Definition answered {host : Platform} (method : HttpMethod)
  (path : string) (options : option RequestOptions.t) (r : Response.t)
  : Prop :=
  exists url init,
    dispatched method path options url init /\ fetch url init = Normal r.

(** What lines 77 to 80 make of the body of a response; [None] when
    [response.json()] rejects. *)
Definition decoded_body {host : Platform} (r : Response.t)
  : option JsValue :=
  if claims_json (Headers_get (Response.headers r) "content-type")
  then JSON_parse (Response.body r)
  else Some JsNull.

(** The object [request] returns for a response and its decoded body. *)
Definition shaped (data : JsValue) (r : Response.t) : HttpResponse :=
  if Response.ok r then
    HttpResponseSuccess data (Response.status r) (Response.statusText r)
      (Response.headers r) r
  else
    HttpResponseError data (Response.status r) (Response.statusText r)
      (Response.headers r) r.

(** The reading of the claim on error statuses without a proviso: every
    answer with a status that is not ok makes the call return the error
    variant. *)
Definition error_status_always_returns (host : Platform) : Prop :=
  forall method path options r,
    answered method path options r ->
    Response.ok r = false ->
    exists data,
      settled (request method path options)
      = Normal (HttpResponseError data (Response.status r)
                  (Response.statusText r) (Response.headers r) r).

(** The reading of the claim on headers: whatever [HeadersInit] carries a
    [Content-Type], the merged headers carry that value. *)
Definition caller_content_type_wins : Prop :=
  forall body h value,
    (h = HeadersRecord [("Content-Type", value)]
     \/ h = HeadersPairs [("Content-Type", value)]
     \/ h = HeadersObject [("Content-Type", value)]) ->
    obj_get "Content-Type" (merged_headers body (Some h))
    = Some (JsString value).

(** The tuples of a list whose name is none of [names]. *)
Definition without_names (names : list string) (l : list (string * string))
  : list (string * string) :=
  filter (fun nv => negb (existsb (String.eqb (fst nv)) names)) l.

(** [params] for a record whose values are all strings. *)
Definition string_params (record : list (string * string)) : Params :=
  map (fun kv => (fst kv, PString (snd kv))) record.

(** The URL the [fetch] side of the usage comparison writes,
    [url + '?' + new URLSearchParams(record)]: the constructor appends
    one tuple per entry of the record, and the concatenation takes the
    serialization of that list. *)
Definition fetch_idiom_url {host : Platform} (url : string)
  (record : list (string * string)) : string :=
  (url ++ "?" ++ urlencoded_serialize record)%string.

(* ================================================================= *)
(** ** [URLSearchParams.set] on lists of tuples *)

Ltac name_cases a b :=
  let H := fresh "Hne" in
  destruct (String.eqb_spec a b) as [| H];
  [ subst; simpl; rewrite ?String.eqb_refl; simpl
  | simpl; rewrite ?(proj2 (String.eqb_neq _ _) H); simpl ];
  try congruence.

(** Runs the wrapper on the sample host to show that a request was
    dispatched or answered. *)
Ltac run_sample :=
  repeat first
    [ reflexivity
    | match goal with
      | |- answered _ _ _ _ => eexists; eexists; split
      | |- dispatched _ _ _ _ _ => eexists; split; [| split]
      end ].

Lemma named_remove_same (k : string) (l : list (string * string)) :
  named k (remove_name k l) = [].
Proof.
  induction l as [| [n v] l IH]; simpl; auto.
  name_cases n k; auto.
Qed.

Lemma named_remove_other (k k' : string) (l : list (string * string)) :
  k' <> k -> named k' (remove_name k l) = named k' l.
Proof.
  intros Hne. induction l as [| [n v] l IH]; simpl; auto.
  name_cases n k.
  - name_cases k k'.
  - name_cases n k'; now rewrite IH.
Qed.

Lemma named_set_same (k v : string) (l : list (string * string)) :
  named k (set_tuple k v l) = [(k, v)].
Proof.
  induction l as [| [n x] l IH]; simpl.
  - now rewrite String.eqb_refl.
  - name_cases n k. now rewrite named_remove_same.
Qed.

Lemma named_set_other (k k' v : string) (l : list (string * string)) :
  k' <> k -> named k' (set_tuple k v l) = named k' l.
Proof.
  intros Hne. induction l as [| [n x] l IH]; simpl.
  - name_cases k k'.
  - name_cases n k.
    + name_cases k k'. now apply named_remove_other.
    + name_cases n k'; now rewrite IH.
Qed.

Lemma remove_name_absent (k : string) (l : list (string * string)) :
  named k l = [] -> remove_name k l = l.
Proof.
  induction l as [| [n x] l IH]; simpl; auto.
  name_cases n k. intros H. now rewrite IH.
Qed.

Lemma rename_absent (k v : string) (l : list (string * string)) :
  named k l = [] ->
  map (fun nv => if fst nv =? k then (fst nv, v) else nv) l = l.
Proof.
  induction l as [| [n x] l IH]; simpl; auto.
  name_cases n k. intros H. now rewrite IH.
Qed.

(** On a list that names [k] once, [set] changes a value in place. *)
Lemma set_tuple_once (k v x : string) (l : list (string * string)) :
  named k l = [(k, x)] ->
  set_tuple k v l = map (fun nv => if fst nv =? k then (fst nv, v) else nv) l.
Proof.
  induction l as [| [n y] l IH]; simpl; [discriminate |].
  name_cases n k.
  - intros H. injection H as _ H.
    now rewrite remove_name_absent, rename_absent.
  - intros H. now rewrite IH.
Qed.

Lemma apply_sets_snoc (entries : list (string * string)) (k v : string)
  (l : list (string * string)) :
  apply_sets (entries ++ [(k, v)]) l = set_tuple k v (apply_sets entries l).
Proof. unfold apply_sets. now rewrite fold_left_app. Qed.

Lemma last_value_snoc (entries : list (string * string)) (k v n : string) :
  last_value n (entries ++ [(k, v)]) =
  if k =? n then Some v else last_value n entries.
Proof.
  induction entries as [| [m x] entries IH]; simpl.
  - reflexivity.
  - rewrite IH. name_cases k n.
Qed.

(** After the sets, a name that some entry carries stands once in the
    list, with the value of the last entry that carries it. *)
Lemma apply_sets_named (entries l : list (string * string)) :
  forall n v, last_value n entries = Some v ->
  named n (apply_sets entries l) = [(n, v)].
Proof.
  induction entries as [| [k x] entries IH] using rev_ind; intros n v.
  - discriminate.
  - rewrite last_value_snoc, apply_sets_snoc.
    name_cases k n.
    + intros H. injection H as ->. apply named_set_same.
    + intros H. rewrite named_set_other by congruence. now apply IH.
Qed.

Lemma named_map (k : string) (f : string * string -> string * string)
  (l : list (string * string)) :
  (forall nv, fst (f nv) = fst nv) ->
  named k (map f l) = map f (named k l).
Proof.
  intros Hf. induction l as [| nv l IH]; simpl; auto.
  rewrite Hf. destruct (fst nv =? k); simpl; now rewrite IH.
Qed.

Lemma override_names (entries : list (string * string))
  (nv : string * string) :
  fst match last_value (fst nv) entries with
      | Some v => (fst nv, v)
      | None => nv
      end = fst nv.
Proof. now destruct (last_value (fst nv) entries). Qed.

(** On a list that names every entry's key once, the sets change values
    in place. *)
Lemma apply_sets_override (entries l : list (string * string)) :
  (forall n v, last_value n entries = Some v -> exists x, named n l = [(n, x)]) ->
  apply_sets entries l = override entries l.
Proof.
  induction entries as [| [k x] entries IH] using rev_ind; intros Honce.
  - unfold override. simpl. now rewrite map_id.
  - rewrite apply_sets_snoc, IH.
    + destruct (Honce k x) as [y Hy].
      { rewrite last_value_snoc, String.eqb_refl. reflexivity. }
      assert (Hk : exists z, named k (override entries l) = [(k, z)]).
      { unfold override. rewrite named_map by (intro; apply override_names).
        rewrite Hy. simpl. destruct (last_value k entries); eauto. }
      destruct Hk as [z Hz]. rewrite (set_tuple_once _ _ _ _ Hz).
      unfold override. rewrite map_map. apply map_ext. intros [n w]. simpl.
      rewrite last_value_snoc.
      destruct (last_value n entries); simpl; name_cases n k;
        try rewrite String.eqb_refl; auto; name_cases k n.
    + intros n v Hv. destruct (String.eqb_spec k n) as [-> | Hne].
      * apply (Honce n x). now rewrite last_value_snoc, String.eqb_refl.
      * apply (Honce n v). rewrite last_value_snoc.
        now rewrite (proj2 (String.eqb_neq _ _) Hne).
Qed.

Lemma named_In (k : string) (l : list (string * string)) (nv : string * string) :
  In nv l -> fst nv = k -> In nv (named k l).
Proof.
  intros Hin Hk. apply filter_In. split; auto.
  now apply String.eqb_eq.
Qed.

(** A list that already carries, once each, the last values of the
    entries is left as it is. *)
Lemma override_fixed (entries l : list (string * string)) :
  (forall n v, last_value n entries = Some v -> named n l = [(n, v)]) ->
  override entries l = l.
Proof.
  intros Hlast. unfold override. rewrite <- (map_id l) at 2.
  apply map_ext_in. intros [n x] Hin. simpl.
  destruct (last_value n entries) as [v |] eqn:Hv; auto.
  pose proof (named_In n l (n, x) Hin eq_refl) as H.
  rewrite (Hlast n v Hv) in H. destruct H as [H | []]. now rewrite H.
Qed.

(** Setting the same entries a second time changes nothing. *)
Lemma apply_sets_idempotent (entries l : list (string * string)) :
  apply_sets entries (apply_sets entries l) = apply_sets entries l.
Proof.
  rewrite (apply_sets_override entries (apply_sets entries l)).
  - apply override_fixed. intros n v. apply apply_sets_named.
  - intros n v Hv. exists v. now apply apply_sets_named.
Qed.

(** The names a list carries after the sets. *)
Lemma set_tuple_names (k v n : string) (l : list (string * string)) :
  In n (map fst (set_tuple k v l)) <-> n = k \/ In n (map fst l).
Proof.
  induction l as [| [m x] l IH]; simpl.
  - intuition.
  - name_cases m k.
    + split; [| intros [-> | [H | H]]; auto].
      * intros [H | H]; auto. right. right.
        apply in_map_iff in H. destruct H as [nv [Hn Hin]].
        apply filter_In in Hin. apply in_map_iff. exists nv. tauto.
      * destruct (String.eqb_spec n k) as [-> | Hne]; auto.
        right. apply in_map_iff in H. destruct H as [nv [Hn Hin]].
        apply in_map_iff. exists nv. split; auto. apply filter_In.
        split; auto. apply negb_true_iff, String.eqb_neq. congruence.
    + rewrite IH. tauto.
Qed.

Lemma apply_sets_names (entries l : list (string * string)) (n : string) :
  In n (map fst (apply_sets entries l)) <->
  In n (map fst l) \/ In n (map fst entries).
Proof.
  revert l. induction entries as [| [k v] entries IH]; intros l; simpl.
  - tauto.
  - unfold apply_sets in *. simpl. rewrite IH, set_tuple_names. intuition.
Qed.

(* ================================================================= *)
(** ** The URL composer *)

Section UrlComposer.

Context {host : Platform}.

Lemma set_param_undefined (u : URL) (k : string) :
  set_param u (k, PUndefined) = u.
Proof. reflexivity. Qed.

Lemma set_param_defined (u : URL) (k : string) (v : ParamValue) :
  v <> PUndefined ->
  set_param u (k, v) = searchParams_set u k (String_ v)
  /\ defined_entries [(k, v)] = [(k, String_ v)].
Proof. destruct v; simpl; intuition congruence. Qed.

Lemma defined_entries_snoc (p : Params) (e : string * ParamValue) :
  defined_entries (p ++ [e]) = defined_entries p ++ defined_entries [e].
Proof. unfold defined_entries. now rewrite flat_map_app. Qed.

(** The loop of [buildUrl] touches neither the base nor the fragment, and
    does to the list of the URL what the sets of the defined entries do. *)
Lemma with_params_frame (u : URL) (p : Params) :
  url_base (fold_left set_param p u) = url_base u
  /\ url_fragment (fold_left set_param p u) = url_fragment u
  /\ url_searchParams (fold_left set_param p u)
     = apply_sets (defined_entries p) (url_searchParams u).
Proof.
  induction p as [| [k v] p IH] using rev_ind; [now simpl |].
  rewrite fold_left_app, defined_entries_snoc. simpl fold_left.
  destruct IH as (Hb & Hf & Hl).
  destruct v;
    unfold apply_sets; rewrite fold_left_app; simpl;
    fold (apply_sets (defined_entries p) (url_searchParams u));
    rewrite <- Hl; auto.
Qed.

(** The query of the URL after the loop: untouched without a defined
    entry, else the serialization of the list. *)
Lemma with_params_query (u : URL) (p : Params) :
  url_query (fold_left set_param p u) =
  match defined_entries p with
  | [] => url_query u
  | _ :: _ => query_of (url_searchParams (fold_left set_param p u))
  end.
Proof.
  induction p as [| [k v] p IH] using rev_ind; [now simpl |].
  rewrite fold_left_app, defined_entries_snoc. simpl fold_left.
  destruct v; simpl; now destruct (defined_entries p).
Qed.

Lemma defined_entries_names (p : Params) (k : string) :
  In k (map fst (defined_entries p)) <->
  exists v, v <> PUndefined /\ In (k, v) p.
Proof.
  induction p as [| [n x] p IH]; simpl.
  - split; [tauto | intros [v [_ []]]].
  - rewrite map_app, in_app_iff, IH. split.
    + intros [H | [v [Hv Hin]]]; [| eauto].
      destruct x; simpl in H; try contradiction; destruct H as [<- | []];
        eexists; (split; [| left; reflexivity]); discriminate.
    + intros [v [Hv [H | Hin]]]; [| eauto].
      injection H as -> ->. left. destruct v; simpl; tauto.
Qed.

Lemma last_value_names (entries : list (string * string)) (k : string) :
  In k (map fst entries) -> exists v, last_value k entries = Some v.
Proof.
  induction entries as [| [n x] entries IH]; simpl; [tauto |].
  intros [-> | H].
  - rewrite String.eqb_refl. destruct (last_value k entries); eauto.
  - destruct (IH H) as [v ->]. eauto.
Qed.

Lemma last_value_In (entries : list (string * string)) (k v : string) :
  last_value k entries = Some v -> In (k, v) entries.
Proof.
  induction entries as [| [n x] entries IH]; simpl; [discriminate |].
  destruct (last_value k entries) as [w |].
  - intros H. injection H as ->. auto.
  - name_cases n k. intros H. injection H as ->. auto.
Qed.

Lemma defined_entries_In (p : Params) (k s : string) :
  In (k, s) (defined_entries p) ->
  exists v, v <> PUndefined /\ In (k, v) p /\ s = String_ v.
Proof.
  induction p as [| [n x] p IH]; simpl; [tauto |].
  rewrite in_app_iff. intros [H | H].
  - destruct x; simpl in H; try contradiction; destruct H as [H | []];
      injection H as <- <-;
      eexists; (split; [| split; [left; reflexivity | reflexivity]]);
      discriminate.
  - destruct (IH H) as (v & Hv & Hin & Hs). eauto.
Qed.

(** Composing again on a URL that carries the composed list gives the
    composed URL back. *)
Lemma with_params_again (u u' : URL) (p : Params) :
  url_searchParams u' = url_searchParams (with_params u (Some p)) ->
  url_searchParams (with_params u' (Some p))
  = url_searchParams (with_params u (Some p)).
Proof.
  simpl. intros H.
  destruct (with_params_frame u' p) as (_ & _ & ->).
  rewrite H. destruct (with_params_frame u p) as (_ & _ & ->).
  apply apply_sets_idempotent.
Qed.

Lemma with_params_fixed (u : URL) (p : Params) :
  with_params (with_params u (Some p)) (Some p) = with_params u (Some p).
Proof.
  pose proof (with_params_again u (with_params u (Some p)) p eq_refl) as Hl.
  simpl in *.
  destruct (with_params_frame (fold_left set_param p u) p) as (Hb & Hf & _).
  pose proof (with_params_query (fold_left set_param p u) p) as Hq.
  pose proof (with_params_query u p) as Hq0.
  destruct (fold_left set_param p (fold_left set_param p u)) as [b q f l].
  destruct (fold_left set_param p u) as [b1 q1 f1 l1].
  simpl in *. subst. f_equal.
  destruct (defined_entries p); congruence.
Qed.

(** The names in the list after the loop: those of the base URL and those
    of the entries with a defined value. *)
Lemma with_params_names (fullUrl : URL) (p : Params) (k : string) :
  In k (map fst (url_searchParams (with_params fullUrl (Some p)))) <->
  In k (map fst (url_searchParams fullUrl))
  \/ exists v, v <> PUndefined /\ In (k, v) p.
Proof.
  simpl. destruct (with_params_frame fullUrl p) as (_ & _ & ->).
  now rewrite apply_sets_names, defined_entries_names.
Qed.

(** C5. An entry of [params] whose value is [undefined] is left out: the
    URL that [buildUrl] serializes names a key in its query exactly when
    the base URL names it or an entry with a defined value carries it, so
    the key of an absent entry is in the query only in these two cases.
    The query string itself is the serialization of that list (or the
    untouched query of the base when no entry is defined). *)
Theorem buildUrl_omits_absent (path : string) (p : Params) (fullUrl : URL)
  (k : string) :
  URL_parse path = Some fullUrl ->
  In (k, PUndefined) p ->
  let composed := with_params fullUrl (Some p) in
  buildUrl path (Some p) = Normal (URL_toString composed)
  /\ (In k (map fst (url_searchParams composed)) <->
      In k (map fst (url_searchParams fullUrl))
      \/ exists v, v <> PUndefined /\ In (k, v) p)
  /\ (url_query composed = query_of (url_searchParams composed)
      \/ url_query composed = url_query fullUrl
         /\ url_searchParams composed = url_searchParams fullUrl).
Proof.
  intros Hparse _ composed. unfold buildUrl. rewrite Hparse.
  split; [reflexivity |]. subst composed.
  split; [apply with_params_names |]. simpl.
  destruct (with_params_frame fullUrl p) as (_ & _ & Hl).
  rewrite with_params_query, Hl.
  destruct (defined_entries p); [right | left]; auto.
Qed.

(** C6. Composing is stable under re-parsing.  Let [u] be a valid absolute
    URL and [p] a mapping without absent values, and let re-parsing the
    composed URL give back the list of tuples that was serialized.  Then
    composing the composed URL with [p] again succeeds and carries the
    same list; every key of [p] stands once in it (set, not appended),
    with [String(value)] of an entry of [p] as its value; and when
    re-parsing gives back the whole URL record the second composition
    returns the very same string. *)
Theorem buildUrl_idempotent (u : string) (p : Params) (fullUrl reparsed : URL) :
  URL_parse u = Some fullUrl ->
  no_absent p ->
  URL_parse (URL_toString (with_params fullUrl (Some p))) = Some reparsed ->
  url_searchParams reparsed
  = url_searchParams (with_params fullUrl (Some p)) ->
  let composed := with_params fullUrl (Some p) in
  buildUrl u (Some p) = Normal (URL_toString composed)
  /\ buildUrl (URL_toString composed) (Some p)
     = Normal (URL_toString (with_params reparsed (Some p)))
  /\ url_searchParams (with_params reparsed (Some p))
     = url_searchParams composed
  /\ (forall k, In k (map fst p) ->
      exists v, In (k, v) p
                /\ named k (url_searchParams composed) = [(k, String_ v)])
  /\ (reparsed = composed ->
      buildUrl (URL_toString composed) (Some p)
      = Normal (URL_toString composed)).
Proof.
  intros Hparse Hdef Hre Hlist composed. fold composed in Hre, Hlist.
  unfold buildUrl. rewrite Hparse, Hre.
  split; [reflexivity |]. split; [reflexivity |].
  split; [now apply with_params_again |]. split.
  - intros k Hk. apply in_map_iff in Hk. destruct Hk as [[k' x] [<- Hin]].
    simpl. assert (Hn : In k' (map fst (defined_entries p))).
    { apply defined_entries_names. exists x. split; eauto. }
    destruct (last_value_names _ _ Hn) as [s Hs].
    destruct (defined_entries_In p k' s (last_value_In _ _ _ Hs))
      as (v & _ & Hv & ->).
    exists v. split; auto. subst composed. simpl.
    destruct (with_params_frame fullUrl p) as (_ & _ & ->).
    now apply apply_sets_named.
  - intros ->. subst composed. now rewrite with_params_fixed.
Qed.

End UrlComposer.

(** The users URL of the sample host with an absent [skip]. *)
Lemma buildUrl_omits_absent_witness :
  @URL_parse Sample.host Sample.users_url = Some Sample.users_parsed
  /\ In ("skip", PUndefined) Sample.users_params
  /\ @buildUrl Sample.host Sample.users_url (Some Sample.users_params)
     = Normal Sample.composed_url
  /\ ~ In "skip"
        (map fst
           (url_searchParams
              (@with_params Sample.host Sample.users_parsed
                 (Some Sample.users_params)))).
Proof.
  assert (Hparse : @URL_parse Sample.host Sample.users_url
                   = Some Sample.users_parsed) by reflexivity.
  assert (Hin : In ("skip", PUndefined) Sample.users_params)
    by (simpl; tauto).
  destruct (@buildUrl_omits_absent Sample.host _ _ _ _ Hparse Hin)
    as (Hs & Hk & _).
  split; [exact Hparse | split; [exact Hin | split; [exact Hs |]]].
  intros H. apply Hk in H. destruct H as [H | (v & Hv & H)].
  - simpl in H. intuition discriminate.
  - simpl in H. intuition congruence.
Defined.

(** Composing the users URL of the sample host twice. *)
Lemma buildUrl_idempotent_witness :
  @URL_parse Sample.host Sample.users_url = Some Sample.users_parsed
  /\ no_absent Sample.filter_params
  /\ @URL_parse Sample.host
       (URL_toString
          (@with_params Sample.host Sample.users_parsed
             (Some Sample.filter_params)))
     = Some (@with_params Sample.host Sample.users_parsed
               (Some Sample.filter_params))
  /\ @buildUrl Sample.host
       "https://api.example.com/users?x=1&role=admin&active=true#top"
       (Some Sample.filter_params)
     = Normal "https://api.example.com/users?x=1&role=admin&active=true#top".
Proof.
  assert (Hparse : @URL_parse Sample.host Sample.users_url
                   = Some Sample.users_parsed) by reflexivity.
  assert (Hdef : no_absent Sample.filter_params).
  { intros k v [H | [H | []]]; injection H as _ <-; discriminate. }
  assert (Hre : @URL_parse Sample.host
                  (URL_toString
                     (@with_params Sample.host Sample.users_parsed
                        (Some Sample.filter_params)))
                = Some (@with_params Sample.host Sample.users_parsed
                          (Some Sample.filter_params))) by reflexivity.
  split; [exact Hparse | split; [exact Hdef | split; [exact Hre |]]].
  destruct (@buildUrl_idempotent Sample.host Sample.users_url
              Sample.filter_params Sample.users_parsed _
              Hparse Hdef Hre eq_refl)
    as (_ & _ & _ & _ & Hfix).
  exact (Hfix eq_refl).
Defined.

(* ================================================================= *)
(** ** Own properties *)

Lemma obj_get_set_same (k : string) (v : JsValue) (o : JsObj) :
  obj_get k (obj_set k v o) = Some v.
Proof.
  induction o as [| [k' v'] o IH]; simpl.
  - now rewrite String.eqb_refl.
  - name_cases k' k.
Qed.

Lemma obj_get_set_other (k k' : string) (v : JsValue) (o : JsObj) :
  k <> k' -> obj_get k (obj_set k' v o) = obj_get k o.
Proof.
  intros Hne. induction o as [| [n x] o IH]; simpl.
  - name_cases k' k.
  - name_cases n k'.
    + name_cases k' k.
    + name_cases n k.
Qed.

Lemma obj_get_absent (k : string) (o : JsObj) :
  ~ In k (map fst o) <-> obj_get k o = None.
Proof.
  induction o as [| [n x] o IH]; simpl.
  - tauto.
  - name_cases n k; [| rewrite <- IH]; intuition discriminate.
Qed.

(** A spread leaves alone the properties it does not carry. *)
Lemma obj_get_spread_absent (k : string) (src o : JsObj) :
  ~ In k (map fst src) -> obj_get k (obj_spread src o) = obj_get k o.
Proof.
  revert o. induction src as [| [n x] src IH]; intros o Hk; simpl in *.
  - reflexivity.
  - unfold obj_spread in *. simpl. rewrite IH by tauto.
    apply obj_get_set_other. intuition.
Qed.

(** A spread defines the properties it carries. *)
Lemma obj_get_spread_present (k : string) (v : JsValue) (src o : JsObj) :
  NoDup (map fst src) -> obj_get k src = Some v ->
  obj_get k (obj_spread src o) = Some v.
Proof.
  revert o. induction src as [| [n x] src IH]; intros o Hnd; simpl.
  - discriminate.
  - inversion Hnd as [| ? ? Hn Hnd']; subst. unfold obj_spread in *. simpl.
    name_cases n k.
    + intros H. injection H as ->.
      rewrite (obj_get_spread_absent k src) by assumption.
      apply obj_get_set_same.
    + intros H. now apply IH.
Qed.

Lemma obj_get_spread (k : string) (src o : JsObj) :
  NoDup (map fst src) ->
  obj_get k (obj_spread src o) =
  match obj_get k src with
  | Some v => Some v
  | None => obj_get k o
  end.
Proof.
  intros Hnd. destruct (obj_get k src) as [v |] eqn:H.
  - now apply obj_get_spread_present.
  - apply obj_get_spread_absent. now apply obj_get_absent.
Qed.

Lemma obj_rest_keys (named : list string) (o : JsObj) (k : string) :
  In k (map fst (obj_rest named o)) <-> In k (map fst o) /\ ~ In k named.
Proof.
  unfold obj_rest. rewrite !in_map_iff. split.
  - intros ([n x] & <- & H). apply filter_In in H. destruct H as [H Hb].
    simpl in *. split; [now exists (n, x) |].
    intros Hin. apply negb_true_iff in Hb.
    assert (existsb (String.eqb n) named = true); [| congruence].
    apply existsb_exists. exists n. split; auto. apply String.eqb_refl.
  - intros [([n x] & <- & H) Hno]. exists (n, x). split; auto.
    apply filter_In. split; auto. simpl in *.
    apply negb_true_iff. destruct (existsb _ named) eqn:He; auto.
    apply existsb_exists in He. destruct He as (m & Hm & He).
    apply String.eqb_eq in He. subst. contradiction.
Qed.

Lemma obj_get_rest (named : list string) (o : JsObj) (k : string) :
  ~ In k named -> obj_get k (obj_rest named o) = obj_get k o.
Proof.
  intros Hk. induction o as [| [n x] o IH]; simpl; auto.
  destruct (existsb (String.eqb n) named) eqn:He; simpl.
  - apply existsb_exists in He. destruct He as (m & Hm & He).
    apply String.eqb_eq in He. subst m. name_cases n k.
  - name_cases n k.
Qed.

Lemma obj_rest_NoDup (named : list string) (o : JsObj) :
  NoDup (map fst o) -> NoDup (map fst (obj_rest named o)).
Proof.
  induction o as [| [n x] o IH]; simpl; auto.
  intros H. inversion H as [| ? ? Hn Hnd]; subst.
  destruct (negb _); simpl; auto. constructor; auto.
  intros Hin. apply obj_rest_keys in Hin. tauto.
Qed.

(* ================================================================= *)
(** ** The run of [request] *)

Section Request.

Context {host : Platform}.

(** A request that reached the transport: what it called and how it
    settled, by the answer of [fetch] and the content type. *)
Lemma request_dispatched (method : HttpMethod) (path : string)
  (options : option RequestOptions.t) (url : string) (init : JsObj) :
  dispatched method path options url init ->
  request method path options =
  match fetch url init with
  | Throw e => ([FetchCall url init], Throw e)
  | Normal r =>
      if claims_json (Headers_get (Response.headers r) "content-type") then
        ([FetchCall url init; JsonCall r],
         match JSON_parse (Response.body r) with
         | Some v => Normal (shaped v r)
         | None => Throw (SyntaxError "Unexpected token")
         end)
      else ([FetchCall url init], Normal (shaped JsNull r))
  end.
Proof.
  intros (finalBody & Hurl & Hbody & ->).
  unfold request, bind, sync, await_fetch, await_json, ret, shaped.
  rewrite Hurl, Hbody. simpl.
  destruct (fetch url _) as [r | e]; [| reflexivity].
  destruct (claims_json _); simpl.
  - destruct (JSON_parse _); [| reflexivity].
    now destruct (Response.ok r).
  - now destruct (Response.ok r).
Qed.

(** A request whose URL does not compose never reaches the transport. *)
Lemma request_url_throws (method : HttpMethod) (path : string)
  (options : option RequestOptions.t) (e : JsError) :
  buildUrl path (RequestOptions.params (default_options options)) = Throw e ->
  request method path options = ([], Throw e).
Proof.
  intros H. unfold request, bind, sync. now rewrite H.
Qed.

(** Nor does one whose body does not encode. *)
Lemma request_body_throws (method : HttpMethod) (path : string)
  (options : option RequestOptions.t) (url : string) (e : JsError) :
  buildUrl path (RequestOptions.params (default_options options))
  = Normal url ->
  final_body (RequestOptions.body (default_options options)) = Throw e ->
  request method path options = ([], Throw e).
Proof.
  intros Hu Hb. unfold request, bind, sync. now rewrite Hu, Hb.
Qed.

Lemma request_answered (method : HttpMethod) (path : string)
  (options : option RequestOptions.t) (r : Response.t) :
  answered method path options r ->
  exists url init,
    dispatched method path options url init
    /\ request method path options =
       if claims_json (Headers_get (Response.headers r) "content-type") then
         ([FetchCall url init; JsonCall r],
          match JSON_parse (Response.body r) with
          | Some v => Normal (shaped v r)
          | None => Throw (SyntaxError "Unexpected token")
          end)
       else ([FetchCall url init], Normal (shaped JsNull r)).
Proof.
  intros (url & init & Hd & Hf). exists url, init. split; auto.
  now rewrite (request_dispatched _ _ _ _ _ Hd), Hf.
Qed.

(** [includes] is containment of a substring. *)
Lemma prefix_spec (t s : string) :
  String.prefix t s = true <-> exists b, s = (t ++ b)%string.
Proof.
  revert s. induction t as [| c t IH]; intros s; simpl.
  - destruct s; split; eauto.
  - destruct s as [| d s]; simpl.
    + split; [discriminate | intros [b H]; discriminate].
    + destruct (ascii_dec c d) as [-> | Hne].
      * rewrite IH. split; intros [b H]; exists b; congruence.
      * split; [discriminate | intros [b H]; congruence].
Qed.

Lemma includes_spec (s t : string) :
  includes s t = true <-> exists a b, s = (a ++ t ++ b)%string.
Proof.
  induction s as [| c s IH]; cbn [includes];
    rewrite orb_true_iff, prefix_spec.
  - split.
    + intros [[b H] | H]; [| discriminate]. now exists EmptyString, b.
    + intros [a [b H]]. left. destruct a; simpl in H; [eauto | discriminate].
  - rewrite IH. split.
    + intros [[b H] | [a [b H]]].
      * now exists EmptyString, b.
      * exists (String c a), b. simpl. congruence.
    + intros [[| d a] [b H]]; simpl in H.
      * left. eauto.
      * right. exists a, b. congruence.
Qed.

(** C1, amended.  For a response whose body decodes (the content type does
    not claim JSON, or the body is JSON text), the call returns normally
    and the variant follows [response.ok], that is a status from 200 to
    299, and nothing else: a status that is not ok gives the error variant,
    with the decoded body, status, status text, headers and raw response
    the success variant would carry. *)
Theorem request_shapes_by_ok (method : HttpMethod) (path : string)
  (options : option RequestOptions.t) (r : Response.t) (data : JsValue) :
  answered method path options r ->
  decoded_body r = Some data ->
  settled (request method path options)
  = Normal (if Response.ok r then
              HttpResponseSuccess data (Response.status r)
                (Response.statusText r) (Response.headers r) r
            else
              HttpResponseError data (Response.status r)
                (Response.statusText r) (Response.headers r) r)
  /\ (Response.ok r = true <->
      (200 <= Response.status r < 300)%Z)
  /\ (forall result,
        settled (request method path options) = Normal result ->
        HttpResponse.ok result = Response.ok r
        /\ HttpResponse.data result = data
        /\ HttpResponse.status result = Response.status r
        /\ HttpResponse.statusText result = Response.statusText r
        /\ HttpResponse.headers result = Response.headers r
        /\ HttpResponse.response result = r).
Proof.
  intros Ha Hd. destruct (request_answered _ _ _ _ Ha) as (url & init & _ & ->).
  unfold decoded_body in Hd.
  assert (Hs : settled
                 (if claims_json (Headers_get (Response.headers r) "content-type")
                  then
                    ([FetchCall url init; JsonCall r],
                     match JSON_parse (Response.body r) with
                     | Some v => Normal (shaped v r)
                     | None => Throw (SyntaxError "Unexpected token")
                     end)
                  else ([FetchCall url init], Normal (shaped JsNull r)))
               = Normal (shaped data r)).
  { destruct (claims_json _); simpl.
    - now rewrite Hd.
    - now injection Hd as <-. }
  rewrite Hs. unfold shaped. split; [reflexivity |]. split.
  - unfold Response.ok. rewrite andb_true_iff, !Z.leb_le. lia.
  - intros result H. injection H as <-. now destruct (Response.ok r).
Qed.

(** C2.  The body is decoded as JSON exactly when the [content-type]
    header is there and its value contains [application/json]; then the
    data is what the decoding gives.  Otherwise no decoding is attempted
    and the data is [null]; so a 204 without [content-type] gives the
    success variant with [null]. *)
Theorem request_decodes_json_only (method : HttpMethod) (path : string)
  (options : option RequestOptions.t) (r : Response.t) :
  answered method path options r ->
  let contentType := Headers_get (Response.headers r) "content-type" in
  let run := request method path options in
  (claims_json contentType = true <->
   exists value a b,
     contentType = Some value
     /\ value = (a ++ "application/json" ++ b)%string)
  /\ (claims_json contentType = true ->
      json_calls (calls run) = [JsonCall r]
      /\ settled run =
         match JSON_parse (Response.body r) with
         | Some v => Normal (shaped v r)
         | None => Throw (SyntaxError "Unexpected token")
         end)
  /\ (claims_json contentType = false ->
      json_calls (calls run) = []
      /\ settled run = Normal (shaped JsNull r))
  /\ (Response.status r = 204%Z -> contentType = None ->
      settled run
      = Normal (HttpResponseSuccess JsNull 204 (Response.statusText r)
                  (Response.headers r) r)).
Proof.
  intros Ha contentType run.
  destruct (request_answered _ _ _ _ Ha) as (url & init & _ & Hrun).
  fold contentType in Hrun. subst run. rewrite Hrun.
  split; [| split; [| split]].
  - unfold claims_json. destruct contentType as [value |].
    + rewrite includes_spec. split.
      * intros (a & b & H). now exists value, a, b.
      * intros (v & a & b & H & H'). injection H as <-. now exists a, b.
    + split; [discriminate | intros (v & _ & _ & H & _); discriminate].
  - intros ->. split; reflexivity.
  - intros ->. split; reflexivity.
  - intros Hstatus Hnone. rewrite Hnone. simpl.
    unfold shaped, Response.ok. now rewrite Hstatus.
Qed.

(** C7.  When the content type claims JSON and the body is not JSON text,
    the rejection of [response.json()] is the rejection of the call: no
    result is returned, whatever the status. *)
Theorem request_decode_failure_propagates (method : HttpMethod)
  (path : string) (options : option RequestOptions.t) (r : Response.t) :
  answered method path options r ->
  claims_json (Headers_get (Response.headers r) "content-type") = true ->
  JSON_parse (Response.body r) = None ->
  settled (request method path options)
  = Throw (SyntaxError "Unexpected token")
  /\ (forall result,
        settled (request method path options) <> Normal result).
Proof.
  intros Ha Hct Hbody.
  destruct (request_answered _ _ _ _ Ha) as (url & init & _ & ->).
  rewrite Hct, Hbody. simpl. split; [reflexivity | discriminate].
Qed.

(** C8.  A path that the URL parser rejects makes [buildUrl] throw the
    [TypeError] of [new URL], and every verb invoked with it rejects with
    that error before any call of the transport: no result is returned. *)
Theorem invalid_url_propagates (path : string) :
  URL_parse path = None ->
  (forall params, buildUrl path params = Throw (TypeError "Invalid URL"))
  /\ (forall options,
        http_get path options = ([], Throw (TypeError "Invalid URL"))
        /\ http_delete path options = ([], Throw (TypeError "Invalid URL")))
  /\ (forall body options,
        http_post path body options = ([], Throw (TypeError "Invalid URL"))
        /\ http_put path body options = ([], Throw (TypeError "Invalid URL"))
        /\ http_patch path body options
           = ([], Throw (TypeError "Invalid URL"))).
Proof.
  intros Hparse.
  assert (Hb : forall params,
             buildUrl path params = Throw (TypeError "Invalid URL")).
  { intros params. unfold buildUrl. now rewrite Hparse. }
  split; [exact Hb |].
  split; intros; repeat split; apply request_url_throws, Hb.
Qed.

(** C9.  A request that reaches the transport calls [fetch] once.  The
    [init] it passes has no [params]; its [body] is the text
    [JSON.stringify] gives when the classifier says JSON and the body
    itself otherwise (the absent body included); and every other own
    property of the options is there with its value. *)
Theorem request_forwards (method : HttpMethod) (path : string)
  (options : option RequestOptions.t) (url : string) (init : JsObj) :
  dispatched method path options url init ->
  NoDup (map fst (RequestOptions.others (default_options options))) ->
  let o := default_options options in
  fetch_calls (calls (request method path options)) = [FetchCall url init]
  /\ obj_get "params" init = None
  /\ (isJsonBody (RequestOptions.body o) = true ->
      exists text,
        JSON_stringify (RequestOptions.body o) = Normal text
        /\ obj_get "body" init
           = Some match text with
                  | Some t => JsString t
                  | None => JsUndefined
                  end)
  /\ (isJsonBody (RequestOptions.body o) = false ->
      obj_get "body" init = Some (RequestOptions.body o))
  /\ (forall k,
        ~ In k ["method"; "headers"; "body"; "params"] ->
        obj_get k init = obj_get k (RequestOptions.others o)).
Proof.
  intros Hd Hnd o. fold o in Hnd. split.
  - rewrite (request_dispatched _ _ _ _ _ Hd).
    destruct (fetch url init) as [r | e]; [| reflexivity].
    now destruct (claims_json _).
  - unfold dispatched in Hd. cbv zeta in Hd. fold o in Hd.
    destruct Hd as (finalBody & _ & Hbody & ->).
    unfold fetch_init.
    assert (Hrest : forall k, In k ["params"; "body"; "headers"] ->
              ~ In k (map fst (obj_rest ["params"; "body"; "headers"]
                                 (RequestOptions.others o)))).
    { intros k Hk H. apply obj_rest_keys in H. tauto. }
    assert (Hb : obj_get "body"
                   (obj_spread
                      (obj_rest ["params"; "body"; "headers"]
                         (RequestOptions.others o))
                      [("method", JsString (method_name method));
                       ("headers",
                        JsObject
                          (merged_headers (RequestOptions.body o)
                             (RequestOptions.headers o)));
                       ("body", finalBody)]) = Some finalBody).
    { rewrite obj_get_spread_absent by (apply Hrest; simpl; tauto).
      reflexivity. }
    split; [| split; [| split]].
    + rewrite obj_get_spread_absent by (apply Hrest; simpl; tauto).
      reflexivity.
    + intros Hjson. rewrite Hb. unfold final_body in Hbody.
      rewrite Hjson in Hbody.
      destruct (JSON_stringify (RequestOptions.body o)) as [text | e];
        [| discriminate].
      exists text. split; auto. destruct text; congruence.
    + intros Hjson. rewrite Hb. unfold final_body in Hbody.
      rewrite Hjson in Hbody. congruence.
    + intros k Hk. rewrite obj_get_spread by now apply obj_rest_NoDup.
      assert (Hm : "method" <> k) by (intros <-; apply Hk; simpl; tauto).
      assert (Hh : "headers" <> k) by (intros <-; apply Hk; simpl; tauto).
      assert (Hy : "body" <> k) by (intros <-; apply Hk; simpl; tauto).
      assert (Hp : "params" <> k) by (intros <-; apply Hk; simpl; tauto).
      rewrite obj_get_rest by (simpl; intuition).
      destruct (obj_get k (RequestOptions.others o)) eqn:Hg; auto.
      cbn [obj_get].
      now rewrite (proj2 (String.eqb_neq _ _) Hm),
        (proj2 (String.eqb_neq _ _) Hh), (proj2 (String.eqb_neq _ _) Hy).
Qed.

(** What a verb with a positional body dispatches: the URL of the
    options, and an init whose body and headers come from the positional
    body. *)
Lemma with_body_dispatched (method : HttpMethod) (path : string)
  (body : JsValue) (options : RequestOptions.t) (url : string)
  (finalBody : JsValue) :
  buildUrl path (RequestOptions.params options) = Normal url ->
  final_body body = Normal finalBody ->
  exists init,
    dispatched method path
      (Some (RequestOptions.with_body (Some options) body)) url init
    /\ fetch_calls
         (calls
            (request method path
               (Some (RequestOptions.with_body (Some options) body))))
       = [FetchCall url init]
    /\ obj_get "body" init = Some finalBody
    /\ obj_get "headers" init
       = Some (JsObject
                 (merged_headers body (RequestOptions.headers options))).
Proof.
  intros Hurl Hbody.
  set (init := fetch_init method
                 (merged_headers body (RequestOptions.headers options))
                 finalBody
                 (obj_rest ["params"; "body"; "headers"]
                    (RequestOptions.others options))).
  assert (Hd : dispatched method path
                 (Some (RequestOptions.with_body (Some options) body))
                 url init).
  { exists finalBody. simpl. auto. }
  exists init. split; [exact Hd | split; [| split]].
  - rewrite (request_dispatched _ _ _ _ _ Hd).
    destruct (fetch url init) as [r | e]; [| reflexivity].
    now destruct (claims_json _).
  - unfold init, fetch_init. rewrite obj_get_spread_absent; [reflexivity |].
    intros H. apply obj_rest_keys in H. simpl in H. tauto.
  - unfold init, fetch_init. rewrite obj_get_spread_absent; [reflexivity |].
    intros H. apply obj_rest_keys in H. simpl in H. tauto.
Qed.

(** C10.  For [post], [put] and [patch] the positional body replaces the
    [body] of the options, whatever the two are.  Each verb is [request]
    on the options with the positional body in the place of their own, so
    the call is the same for every [body] inside the options; and what is
    dispatched is the positional body: [fetch] gets its JSON text when
    the classifier says JSON and the positional body itself otherwise,
    with headers merged for the positional body.  With [undefined] as
    positional body the classifier says no and [fetch] gets [undefined],
    not the body of the options. *)
Theorem positional_body_wins (path : string) (body inner : JsValue)
  (options : RequestOptions.t) :
  let options' :=
    RequestOptions.mk (RequestOptions.params options) inner
      (RequestOptions.headers options) (RequestOptions.others options) in
  let replaced :=
    RequestOptions.mk (RequestOptions.params options) body
      (RequestOptions.headers options) (RequestOptions.others options) in
  (http_post path body (Some options') = request POST path (Some replaced)
   /\ http_put path body (Some options') = request PUT path (Some replaced)
   /\ http_patch path body (Some options')
      = request PATCH path (Some replaced))
  /\ http_post path body (Some options') = http_post path body (Some options)
  /\ http_put path body (Some options') = http_put path body (Some options)
  /\ http_patch path body (Some options')
     = http_patch path body (Some options)
  /\ (forall url finalBody,
        buildUrl path (RequestOptions.params options) = Normal url ->
        final_body body = Normal finalBody ->
        (isJsonBody body = false -> finalBody = body)
        /\ (isJsonBody body = true ->
            exists text,
              JSON_stringify body = Normal text
              /\ finalBody = match text with
                             | Some t => JsString t
                             | None => JsUndefined
                             end)
        /\ forall run,
             In run [http_post path body (Some options');
                     http_put path body (Some options');
                     http_patch path body (Some options')] ->
             exists init,
               fetch_calls (calls run) = [FetchCall url init]
               /\ obj_get "body" init = Some finalBody
               /\ obj_get "headers" init
                  = Some (JsObject
                            (merged_headers body
                               (RequestOptions.headers options))))
  /\ isJsonBody JsUndefined = false
  /\ (forall url,
        buildUrl path (RequestOptions.params options) = Normal url ->
        exists init,
          fetch_calls (calls (http_post path JsUndefined (Some options')))
          = [FetchCall url init]
          /\ obj_get "body" init = Some JsUndefined).
Proof.
  intros options' replaced.
  split; [repeat split |]. repeat (split; [reflexivity |]).
  split; [| split; [reflexivity |]].
  - intros url finalBody Hurl Hbody. split; [| split].
    + intros Hjson. unfold final_body in Hbody. rewrite Hjson in Hbody.
      congruence.
    + intros Hjson. unfold final_body in Hbody. rewrite Hjson in Hbody.
      destruct (JSON_stringify body) as [text | e]; [| discriminate].
      exists text. split; auto. destruct text; congruence.
    + intros run Hrun.
      assert (Hverb : exists method,
                 run = request method path
                         (Some (RequestOptions.with_body (Some options')
                                  body))).
      { destruct Hrun as [<- | [<- | [<- | []]]];
          [exists POST | exists PUT | exists PATCH]; reflexivity. }
      destruct Hverb as [method ->].
      destruct (with_body_dispatched method path body options' url finalBody
                  Hurl Hbody) as (init & _ & Hcalls & Hb & Hh).
      exists init. auto.
  - intros url Hurl.
    destruct (with_body_dispatched POST path JsUndefined options' url
                JsUndefined Hurl eq_refl) as (init & _ & Hcalls & Hb & _).
    exists init. auto.
Qed.

End Request.

(* ================================================================= *)
(** ** The body classifier and the merged headers *)

Lemma instanceof_FormData (v : JsValue) :
  instanceof v FormData = true <-> exists h, v = JsHost FormData h.
Proof.
  split; [| intros [h ->]; reflexivity].
  destruct v as [| | | | | | | c h]; try discriminate.
  destruct c; try discriminate. eauto.
Qed.

Lemma instanceof_Blob (v : JsValue) :
  instanceof v Blob = true <->
  exists h, v = JsHost Blob h \/ v = JsHost File h.
Proof.
  split; [| intros [h [-> | ->]]; reflexivity].
  destruct v as [| | | | | | | c h]; try discriminate.
  destruct c; try discriminate; eauto.
Qed.

(** C3.  The classifier says no exactly on [undefined], on instances of
    [FormData] and on instances of [Blob]; it says yes on every other
    value, among them plain objects, arrays, strings, numbers, booleans
    and [null]. *)
Theorem isJsonBody_classifies (body : JsValue) :
  (isJsonBody body = false <->
   body = JsUndefined
   \/ instanceof body FormData = true
   \/ instanceof body Blob = true)
  /\ (isJsonBody body = true <->
      body <> JsUndefined
      /\ instanceof body FormData = false
      /\ instanceof body Blob = false)
  /\ (forall properties, isJsonBody (JsObject properties) = true)
  /\ (forall elements, isJsonBody (JsArray elements) = true)
  /\ (forall s, isJsonBody (JsString s) = true)
  /\ (forall n, isJsonBody (JsNumber n) = true)
  /\ (forall b, isJsonBody (JsBool b) = true)
  /\ isJsonBody JsNull = true.
Proof.
  split; [| split; [| repeat split]].
  - unfold isJsonBody.
    destruct body as [| | | | | | | c h]; simpl;
      try (split; [discriminate | intros [H | [H | H]]; discriminate]).
    + split; auto.
    + destruct c; simpl; split; auto; intros [H | [H | H]]; discriminate.
  - unfold isJsonBody.
    destruct body as [| | | | | | | c h]; simpl;
      try (split; [intros _; repeat split; discriminate | reflexivity]).
    + split; [discriminate | intros [H _]; congruence].
    + destruct c; simpl; split; try discriminate;
        try (intros _; repeat split; discriminate);
        try reflexivity; intros (_ & H1 & H2); discriminate.
Qed.

(** The spread of a record of headers overrides the injected default. *)
Lemma obj_get_record (k : string) (entries : list (string * string)) :
  obj_get k (map (fun nv => (fst nv, JsString (snd nv))) entries)
  = option_map JsString
      (option_map snd (find (fun nv => fst nv =? k) entries)).
Proof.
  induction entries as [| [n x] entries IH]; simpl; auto.
  name_cases n k.
Qed.

Lemma merged_headers_record (body : JsValue)
  (entries : list (string * string)) (value : string) :
  NoDup (map fst entries) ->
  In ("Content-Type", value) entries ->
  obj_get "Content-Type" (merged_headers body (Some (HeadersRecord entries)))
  = Some (JsString value).
Proof.
  intros Hnd Hin. unfold merged_headers. simpl own_properties.
  apply obj_get_spread_present.
  - now rewrite map_map.
  - rewrite obj_get_record.
    induction entries as [| [n x] entries IH]; simpl in *; [tauto |].
    inversion Hnd as [| ? ? Hn Hnd']; subst.
    destruct Hin as [H | H].
    + injection H as -> ->. reflexivity.
    + name_cases n "Content-Type"; auto.
      exfalso. apply Hn. apply in_map_iff. now exists ("Content-Type", value).
Qed.

(** No default is injected for a body that is not JSON. *)
Lemma merged_headers_no_default (body : JsValue)
  (headers : option HeadersInit) :
  isJsonBody body = false ->
  merged_headers body headers = obj_spread (own_properties headers) [].
Proof. intros H. unfold merged_headers. now rewrite H. Qed.

(** C4, on a [Headers] object.  With a JSON body and the caller's
    [Content-Type: text/plain] inside a [Headers] object, the merged
    headers hold the injected [application/json] and nothing of the
    caller's: the spread of a [Headers] object copies no header, and
    [fetch] is called with the default alone.  So a caller-supplied
    [Content-Type] does not always win. *)
Theorem merged_headers_lose_Headers_object :
  merged_headers (JsObject [("name", JsString "Bob")])
    (Some (HeadersObject [("Content-Type", "text/plain")]))
  = [("Content-Type", JsString "application/json")]
  /\ fetch_calls
       (calls
          (@http_post Sample.host "https://api.example.com/users" Sample.bob
             (Some (RequestOptions.mk None JsUndefined
                      (Some (HeadersObject [("Content-Type", "text/plain")]))
                      []))))
     = [FetchCall "https://api.example.com/users"
          [("method", JsString "POST");
           ("headers",
            JsObject [("Content-Type", JsString "application/json")]);
           ("body", JsString (Sample.text_of Sample.bob))]]
  /\ ~ caller_content_type_wins.
Proof.
  split; [reflexivity | split; [reflexivity |]]. intros H.
  specialize (H (JsObject [("name", JsString "Bob")])
                (HeadersObject [("Content-Type", "text/plain")])
                "text/plain" (or_intror (or_intror eq_refl))).
  discriminate H.
Qed.

(* ================================================================= *)
(** ** The statements on the sample host *)

(** C1 as first read fails: the sample server answers 500 with a JSON
    content type and a body that is not JSON, and the call rejects
    instead of returning the error variant. *)
Lemma error_status_may_throw :
  ~ error_status_always_returns Sample.host.
Proof.
  intros H.
  destruct (H GET "https://h/broken" None (Sample.broken "https://h/broken"))
    as [data Hdata].
  - exists "https://h/broken",
      [("method", JsString "GET"); ("headers", JsObject []);
       ("body", JsUndefined)].
    split; [| reflexivity]. exists JsUndefined. repeat split.
  - reflexivity.
  - discriminate Hdata.
Qed.

(** A 422 with a JSON body on the sample host. *)
Lemma request_shapes_by_ok_witness :
  @answered Sample.host POST "https://api.example.com/invalid"
    Sample.post_bob (Sample.unprocessable "https://api.example.com/invalid")
  /\ @decoded_body Sample.host
       (Sample.unprocessable "https://api.example.com/invalid")
     = Some Sample.errors
  /\ settled
       (@request Sample.host POST "https://api.example.com/invalid"
          Sample.post_bob)
     = Normal
         (HttpResponseError Sample.errors 422 "Unprocessable Entity"
            [("content-type", "application/json; charset=utf-8")]
            (Sample.unprocessable "https://api.example.com/invalid")).
Proof.
  assert (Ha : @answered Sample.host POST "https://api.example.com/invalid"
                 Sample.post_bob
                 (Sample.unprocessable "https://api.example.com/invalid"))
    by run_sample.
  assert (Hd : @decoded_body Sample.host
                 (Sample.unprocessable "https://api.example.com/invalid")
               = Some Sample.errors) by reflexivity.
  split; [exact Ha | split; [exact Hd |]].
  exact (proj1 (@request_shapes_by_ok Sample.host _ _ _ _ _ Ha Hd)).
Defined.

(** A 204 without content type on the sample host. *)
Lemma request_decodes_json_only_witness :
  @answered Sample.host GET "https://h/empty" None
    (Sample.no_content "https://h/empty")
  /\ settled (@request Sample.host GET "https://h/empty" None)
     = Normal
         (HttpResponseSuccess JsNull 204 "No Content" []
            (Sample.no_content "https://h/empty"))
  /\ json_calls (calls (@request Sample.host GET "https://h/empty" None))
     = [].
Proof.
  assert (Ha : @answered Sample.host GET "https://h/empty" None
                 (Sample.no_content "https://h/empty")) by run_sample.
  destruct (@request_decodes_json_only Sample.host _ _ _ _ Ha)
    as (_ & _ & Hnull & H204).
  split; [exact Ha | split].
  - exact (H204 eq_refl eq_refl).
  - exact (proj1 (Hnull eq_refl)).
Defined.

(** A 500 that claims JSON and sends markup, on the sample host. *)
Lemma request_decode_failure_propagates_witness :
  @answered Sample.host GET "https://h/broken" None
    (Sample.broken "https://h/broken")
  /\ claims_json
       (Headers_get (Response.headers (Sample.broken "https://h/broken"))
          "content-type") = true
  /\ @JSON_parse Sample.host (Response.body (Sample.broken "https://h/broken"))
     = None
  /\ settled (@request Sample.host GET "https://h/broken" None)
     = Throw (SyntaxError "Unexpected token").
Proof.
  assert (Ha : @answered Sample.host GET "https://h/broken" None
                 (Sample.broken "https://h/broken")) by run_sample.
  split; [exact Ha | split; [reflexivity | split; [reflexivity |]]].
  exact (proj1 (@request_decode_failure_propagates Sample.host _ _ _ _ Ha
                  eq_refl eq_refl)).
Defined.

(** A relative path on the sample host. *)
Lemma invalid_url_propagates_witness :
  @URL_parse Sample.host "/api/users" = None
  /\ @http_post Sample.host "/api/users" Sample.bob None
     = ([], Throw (TypeError "Invalid URL")).
Proof.
  assert (Hparse : @URL_parse Sample.host "/api/users" = None)
    by reflexivity.
  split; [exact Hparse |].
  destruct (@invalid_url_propagates Sample.host _ Hparse) as (_ & _ & Hb).
  exact (proj1 (Hb Sample.bob None)).
Defined.

(** A [put] with a signal, credentials and a cache mode on the sample
    host. *)
Lemma request_forwards_witness :
  @dispatched Sample.host PUT Sample.users_url (Some Sample.passing)
    Sample.composed_url Sample.passing_init
  /\ NoDup (map fst (RequestOptions.others Sample.passing))
  /\ fetch_calls
       (calls (@request Sample.host PUT Sample.users_url (Some Sample.passing)))
     = [FetchCall Sample.composed_url Sample.passing_init]
  /\ obj_get "signal" Sample.passing_init = Some (JsHost AbortSignal 0).
Proof.
  assert (Hd : @dispatched Sample.host PUT Sample.users_url
                 (Some Sample.passing) Sample.composed_url
                 Sample.passing_init) by run_sample.
  assert (Hnd : NoDup (map fst (RequestOptions.others Sample.passing))).
  { simpl. repeat constructor; simpl; intuition discriminate. }
  split; [exact Hd | split; [exact Hnd |]].
  destruct (@request_forwards Sample.host _ _ _ _ _ Hd Hnd)
    as (Hcalls & _ & _ & _ & Hrest).
  split; [exact Hcalls |].
  rewrite (Hrest "signal"); [reflexivity |].
  simpl. intuition discriminate.
Defined.

(** A [post] with a body inside the options, on the sample host: with a
    defined positional body and with [undefined]. *)
Lemma positional_body_wins_witness :
  @buildUrl Sample.host Sample.users_url (Some Sample.users_params)
  = Normal Sample.composed_url
  /\ @final_body Sample.host Sample.errors
     = Normal (JsString (Sample.text_of Sample.errors))
  /\ (exists init,
        fetch_calls
          (calls (@http_post Sample.host Sample.users_url Sample.errors
                    (Some Sample.passing)))
        = [FetchCall Sample.composed_url init]
        /\ obj_get "body" init
           = Some (JsString (Sample.text_of Sample.errors)))
  /\ exists init,
      fetch_calls
        (calls (@http_post Sample.host Sample.users_url JsUndefined
                  (Some Sample.passing)))
      = [FetchCall Sample.composed_url init]
      /\ obj_get "body" init = Some JsUndefined.
Proof.
  assert (Hurl : @buildUrl Sample.host Sample.users_url
                   (Some Sample.users_params)
                 = Normal Sample.composed_url) by reflexivity.
  assert (Hbody : @final_body Sample.host Sample.errors
                  = Normal (JsString (Sample.text_of Sample.errors)))
    by reflexivity.
  split; [exact Hurl | split; [exact Hbody | split]].
  - destruct (@positional_body_wins Sample.host Sample.users_url
                Sample.errors Sample.bob Sample.passing)
      as (_ & _ & _ & _ & H & _).
    destruct (H _ _ Hurl Hbody) as (_ & _ & Hruns).
    destruct (Hruns _ (or_introl eq_refl)) as (init & Hcalls & Hb & _).
    exists init. split; [exact Hcalls | exact Hb].
  - destruct (@positional_body_wins Sample.host Sample.users_url JsUndefined
                Sample.bob Sample.passing) as (_ & _ & _ & _ & _ & _ & H).
    exact (H _ Hurl).
Defined.

(** A request calls [fetch] at most once, whatever happens. *)
Lemma request_fetches_at_most_once {host : Platform} (method : HttpMethod)
  (path : string) (options : option RequestOptions.t) :
  (length (fetch_calls (calls (request method path options))) <= 1)%nat.
Proof.
  destruct (buildUrl path (RequestOptions.params (default_options options)))
    as [url | e] eqn:Hurl.
  - destruct (final_body (RequestOptions.body (default_options options)))
      as [finalBody | e] eqn:Hbody.
    + rewrite (request_dispatched method path options url
                 (fetch_init method
                    (merged_headers
                       (RequestOptions.body (default_options options))
                       (RequestOptions.headers (default_options options)))
                    finalBody
                    (obj_rest ["params"; "body"; "headers"]
                       (RequestOptions.others (default_options options)))))
        by (exists finalBody; auto).
      destruct (fetch url _) as [r | e]; simpl; auto.
      destruct (claims_json _); simpl; auto.
    + rewrite (request_body_throws _ _ _ _ _ Hurl Hbody). simpl. lia.
  - rewrite (request_url_throws _ _ _ _ Hurl). simpl. lia.
Qed.

(** The sample server answers 201 with a JSON body: success variant with
    the decoded body. *)
Example post_created :
  settled (@http_post Sample.host "https://api.example.com/users"
             Sample.bob None)
  = Normal (HttpResponseSuccess Sample.user 201 "Created"
              [("content-type", "application/json")]
              (Sample.created "https://api.example.com/users")).
Proof. reflexivity. Qed.

(** One outbound request, with the JSON text as body and the injected
    content type. *)
Example post_json_body :
  fetch_calls
    (calls (@http_post Sample.host "https://api.example.com/users"
              Sample.bob None))
  = [FetchCall "https://api.example.com/users"
       [("method", JsString "POST");
        ("headers", JsObject [("Content-Type", JsString "application/json")]);
        ("body", JsString (Sample.text_of Sample.bob))]].
Proof. reflexivity. Qed.

(** A form goes out untouched and without an injected content type. *)
Example post_form_data :
  fetch_calls
    (calls (@http_post Sample.host "https://api.example.com/upload"
              (JsHost FormData 7) None))
  = [FetchCall "https://api.example.com/upload"
       [("method", JsString "POST"); ("headers", JsObject []);
        ("body", JsHost FormData 7)]].
Proof. reflexivity. Qed.

(** A record of headers overrides the injected default; a [Headers]
    object and an array of pairs do not reach the merged headers as
    headers. *)
Example headers_record_overrides :
  merged_headers Sample.bob
    (Some (HeadersRecord [("Content-Type", "text/plain"); ("X-Id", "1")]))
  = [("Content-Type", JsString "text/plain"); ("X-Id", JsString "1")].
Proof. reflexivity. Qed.

Example headers_pairs_spread :
  let merged :=
    merged_headers Sample.bob
      (Some (HeadersPairs [("Content-Type", "text/plain")])) in
  obj_get "Content-Type" merged = Some (JsString "application/json")
  /\ obj_get "0" merged
     = Some (JsArray [JsString "Content-Type"; JsString "text/plain"]).
Proof. split; reflexivity. Qed.

(** A 422 with a JSON body: error variant with the decoded body. *)
Example post_unprocessable :
  settled (@http_post Sample.host "https://api.example.com/invalid"
             Sample.bob None)
  = Normal (HttpResponseError Sample.errors 422 "Unprocessable Entity"
              [("content-type", "application/json; charset=utf-8")]
              (Sample.unprocessable "https://api.example.com/invalid")).
Proof. reflexivity. Qed.

(** A 404 with a text body: error variant with [null], and no decoding. *)
Example get_not_found :
  @http_get Sample.host "https://api.example.com/missing" None
  = ([FetchCall "https://api.example.com/missing"
        [("method", JsString "GET"); ("headers", JsObject []);
         ("body", JsUndefined)]],
     Normal (HttpResponseError JsNull 404 "Not Found"
               [("content-type", "text/plain")]
               (Sample.not_found "https://api.example.com/missing"))).
Proof. reflexivity. Qed.

(** A rejection of [fetch] is the rejection of the call. *)
Example get_network_failure :
  @http_get Sample.host "https://api.example.com/down" None
  = ([FetchCall "https://api.example.com/down"
        [("method", JsString "GET"); ("headers", JsObject []);
         ("body", JsUndefined)]],
     Throw (TypeError "Failed to fetch")).
Proof. reflexivity. Qed.

(* ================================================================= *)
(** ** Round trip on the sample host *)

Lemma urldecode_urlencode (s : string) :
  Sample.urldecode (Sample.urlencode s) = s.
Proof.
  induction s as [| c s IH]; [reflexivity |].
  destruct c as [[] [] [] [] [] [] [] []]; exact (f_equal (String _) IH).
Qed.

Lemma urlencode_clean (s : string) :
  Sample.occurs "&" (Sample.urlencode s) = false
  /\ Sample.occurs "=" (Sample.urlencode s) = false
  /\ Sample.occurs "#" (Sample.urlencode s) = false.
Proof.
  induction s as [| c s IH]; [now cbn |].
  destruct c as [[] [] [] [] [] [] [] []]; exact IH.
Qed.

Lemma occurs_append (x : ascii) (a b : string) :
  Sample.occurs x (a ++ b) = Sample.occurs x a || Sample.occurs x b.
Proof.
  induction a as [| c a IH]; simpl; auto.
  rewrite IH. now rewrite orb_assoc.
Qed.

Lemma cut_found (sep : ascii) (a b : string) :
  Sample.occurs sep a = false ->
  Sample.cut sep (a ++ String sep b) = (a, Some b).
Proof.
  induction a as [| c a IH]; simpl.
  - now rewrite Ascii.eqb_refl.
  - rewrite orb_false_iff. intros [-> H]. now rewrite IH.
Qed.

Lemma cut_none (sep : ascii) (a : string) :
  Sample.occurs sep a = false -> Sample.cut sep a = (a, None).
Proof.
  induction a as [| c a IH]; simpl; auto.
  rewrite orb_false_iff. intros [-> H]. now rewrite IH.
Qed.

Lemma split_piece (sep : ascii) (a rest : string) :
  Sample.occurs sep a = false ->
  Sample.split sep (a ++ String sep rest) = a :: Sample.split sep rest.
Proof.
  induction a as [| c a IH]; simpl.
  - now rewrite Ascii.eqb_refl.
  - rewrite orb_false_iff. intros [-> H]. now rewrite IH.
Qed.

Lemma split_one (sep : ascii) (a : string) :
  Sample.occurs sep a = false -> Sample.split sep a = [a].
Proof.
  induction a as [| c a IH]; simpl; auto.
  rewrite orb_false_iff. intros [-> H]. now rewrite IH.
Qed.

Lemma split_concat (sep : ascii) (pieces : list string) :
  pieces <> [] ->
  (forall piece, In piece pieces -> Sample.occurs sep piece = false) ->
  Sample.split sep (String.concat (String sep EmptyString) pieces) = pieces.
Proof.
  induction pieces as [| piece [| next pieces] IH]; intros Hne Hclean.
  - congruence.
  - simpl. apply split_one, Hclean. now left.
  - change (String.concat (String sep EmptyString) (piece :: next :: pieces))
      with (piece ++ String sep
                       (String.concat (String sep EmptyString)
                          (next :: pieces)))%string.
    rewrite split_piece by (apply Hclean; now left).
    rewrite IH; [reflexivity | discriminate |].
    intros x Hx. apply Hclean. now right.
Qed.

Lemma read_write_tuple (nv : string * string) :
  Sample.read_tuple (Sample.write_tuple nv) = nv
  /\ (Sample.write_tuple nv =? "") = false
  /\ Sample.occurs "&" (Sample.write_tuple nv) = false
  /\ Sample.occurs "#" (Sample.write_tuple nv) = false.
Proof.
  destruct nv as [n v]. unfold Sample.read_tuple, Sample.write_tuple. simpl.
  destruct (urlencode_clean n) as (Hn1 & Hn2 & Hn3).
  destruct (urlencode_clean v) as (Hv1 & _ & Hv3).
  rewrite (cut_found _ _ _ Hn2), !urldecode_urlencode, !occurs_append.
  simpl. rewrite Hn1, Hn3, Hv1, Hv3.
  repeat split. now destruct (Sample.urlencode n).
Qed.

(** Parsing what the serializer wrote gives the list back. *)
Lemma parse_query_serialize (l : list (string * string)) :
  Sample.parse_query (Sample.serialize l) = l.
Proof.
  destruct l as [| nv l]; [reflexivity |].
  unfold Sample.parse_query, Sample.serialize.
  rewrite split_concat.
  - induction (nv :: l) as [| x rest IH]; [reflexivity |].
    destruct (read_write_tuple x) as (Hread & Hne & _).
    simpl. rewrite Hne. simpl. now rewrite Hread, IH.
  - discriminate.
  - intros piece Hin. apply in_map_iff in Hin.
    destruct Hin as (x & <- & _). apply read_write_tuple.
Qed.

Lemma serialize_clean (l : list (string * string)) :
  Sample.occurs "#" (Sample.serialize l) = false
  /\ (l <> [] -> (Sample.serialize l =? "") = false).
Proof.
  unfold Sample.serialize. split.
  - induction l as [| x [| y l] IH]; [reflexivity | apply read_write_tuple |].
    change (String.concat "&" (map Sample.write_tuple (x :: y :: l)))
      with (Sample.write_tuple x
            ++ String "&"
                 (String.concat "&" (map Sample.write_tuple (y :: l))))%string.
    rewrite occurs_append. simpl in *. rewrite IH.
    now destruct (read_write_tuple x) as (_ & _ & _ & ->).
  - destruct l as [| x [| y l]]; [congruence | |]; intros _.
    + apply read_write_tuple.
    + change (String.concat "&" (map Sample.write_tuple (x :: y :: l)))
        with (Sample.write_tuple x
              ++ String "&"
                   (String.concat "&" (map Sample.write_tuple (y :: l))))%string.
      now destruct (Sample.write_tuple x).
Qed.

Lemma append_assoc (a b c : string) : ((a ++ b) ++ c = a ++ b ++ c)%string.
Proof. induction a as [| x a IH]; simpl; congruence. Qed.

Lemma append_empty (a : string) : (a ++ "" = a)%string.
Proof. induction a as [| x a IH]; simpl; congruence. Qed.

Lemma prefix_append (t a b : string) :
  String.prefix t a = true -> String.prefix t (a ++ b) = true.
Proof.
  rewrite !prefix_spec. intros [c ->]. exists (c ++ b)%string.
  apply append_assoc.
Qed.

Lemma cut_parts (sep x : ascii) (s a : string) (b : option string) :
  Sample.cut sep s = (a, b) ->
  Sample.occurs sep a = false
  /\ (Sample.occurs x s = false ->
      Sample.occurs x a = false
      /\ forall b', b = Some b' -> Sample.occurs x b' = false)
  /\ forall t, String.prefix t s = true -> Sample.occurs sep t = false ->
               String.prefix t a = true.
Proof.
  revert a b. induction s as [| c s IH]; simpl; intros a b.
  - intros H. injection H as <- <-. repeat split; auto; discriminate.
  - destruct (Ascii.eqb c sep) eqn:Hc.
    + intros H. injection H as <- <-. repeat split; auto.
      * rewrite orb_false_iff in H. intros b' Hb. injection Hb as <-. tauto.
      * intros [| d t]; auto. simpl.
        destruct (ascii_dec d c) as [-> | Hd]; [| discriminate].
        now rewrite Hc.
    + destruct (Sample.cut sep s) as [a' b'] eqn:Hcut.
      destruct (IH a' b' eq_refl) as (H1 & H2 & H3).
      intros H. injection H as <- <-. simpl. rewrite Hc. repeat split; auto.
      * rewrite orb_false_iff in H. destruct H as [-> H]. simpl.
        exact (proj1 (H2 H)).
      * rewrite orb_false_iff in H. exact (proj2 (H2 (proj2 H))).
      * intros [| d t]; auto. simpl.
        destruct (ascii_dec d c) as [-> | Hd]; [| discriminate].
        rewrite orb_false_iff. intros Hp [_ Ht]. now apply H3.
Qed.

(** The sample parser gives well-formed records. *)
Lemma well_formed_parse (s : string) (u : URL) :
  Sample.parse_url s = Some u -> Sample.well_formed u.
Proof.
  unfold Sample.parse_url.
  destruct (String.prefix "http://" s || String.prefix "https://" s)
    eqn:Habs; [| discriminate].
  destruct (Sample.cut "#" s) as [beforeFragment fragment] eqn:Hf.
  destruct (Sample.cut "?" beforeFragment) as [base query] eqn:Hq.
  intros H. injection H as <-. unfold Sample.well_formed. simpl.
  destruct (cut_parts "#" "#" _ _ _ Hf) as (Hclean & _ & Hpre).
  destruct (cut_parts "?" "#" _ _ _ Hq) as (Hbase & Hhash & Hpre').
  destruct (Hhash Hclean) as [Hb Hqc].
  split; [| split; [| split]]; auto.
  - apply orb_true_iff in Habs. apply orb_true_iff.
    destruct Habs as [H | H]; [left | right];
      (apply Hpre'; [apply Hpre |]; auto).
  - destruct query as [q |]; auto.
Qed.

Lemma set_tuple_nonempty (k v : string) (l : list (string * string)) :
  set_tuple k v l <> [].
Proof. destruct l as [| [n x] l]; simpl; [| destruct (n =? k)]; discriminate. Qed.

(** The sets keep them well formed. *)
Lemma well_formed_set (u : URL) (k v : string) :
  Sample.well_formed u ->
  Sample.well_formed (@searchParams_set Sample.host u k v).
Proof.
  intros (Habs & Hq & Hh & _). unfold Sample.well_formed, searchParams_set.
  simpl. repeat split; auto.
  destruct (serialize_clean (set_tuple k v (url_searchParams u)))
    as [Hclean Hne].
  rewrite (Hne (set_tuple_nonempty _ _ _)).
  split; auto. now rewrite parse_query_serialize.
Qed.

Lemma well_formed_params (u : URL) (p : option Params) :
  Sample.well_formed u ->
  Sample.well_formed (@with_params Sample.host u p).
Proof.
  destruct p as [p |]; simpl; auto. revert u.
  induction p as [| [k v] p IH]; simpl; auto.
  intros u Hu. apply IH. destruct v; simpl; auto; now apply well_formed_set.
Qed.

(** Parsing the serialization of a well-formed record gives it back. *)
Lemma well_formed_reparse (u : URL) :
  Sample.well_formed u -> Sample.parse_url (URL_toString u) = Some u.
Proof.
  destruct u as [base query fragment l].
  unfold Sample.well_formed, URL_toString, Sample.parse_url.
  cbn [url_base url_query url_fragment url_searchParams].
  intros (Habs & Hq & Hh & Hl).
  set (qpart := match query with Some q => ("?" ++ q)%string | None => "" end).
  set (fpart := match fragment with
                | Some f => ("#" ++ f)%string
                | None => ""
                end).
  assert (Hpre : String.prefix "http://" (base ++ qpart ++ fpart)
                 || String.prefix "https://" (base ++ qpart ++ fpart) = true).
  { apply orb_true_iff in Habs. apply orb_true_iff.
    destruct Habs as [H | H]; [left | right]; now apply prefix_append. }
  assert (Hbq : Sample.occurs "#" (base ++ qpart) = false).
  { rewrite occurs_append, Hh. subst qpart.
    destruct query as [q |]; simpl; tauto. }
  assert (Hcut : Sample.cut "?" (base ++ qpart) = (base, query)).
  { subst qpart. destruct query as [q |].
    - now apply cut_found.
    - rewrite append_empty. now apply cut_none. }
  assert (Hfrag : Sample.cut "#" (base ++ qpart ++ fpart)
                  = ((base ++ qpart)%string, fragment)).
  { subst fpart. rewrite <- append_assoc. destruct fragment as [f |].
    - now apply cut_found.
    - rewrite append_empty. now apply cut_none. }
  rewrite Hpre, Hfrag, Hcut.
  destruct query as [q |]; [destruct Hl as [_ ->] | rewrite Hl]; reflexivity.
Qed.

(** On the sample host composing is idempotent for every URL and every
    mapping: composing the composed URL gives the same string. *)
Corollary sample_buildUrl_twice (u : string) (p : Params) (s : string) :
  @buildUrl Sample.host u (Some p) = Normal s ->
  @buildUrl Sample.host s (Some p) = Normal s.
Proof.
  unfold buildUrl.
  destruct (@URL_parse Sample.host u) as [fullUrl |] eqn:Hparse;
    [| discriminate].
  intros H. injection H as <-.
  pose proof (well_formed_reparse _
                (well_formed_params _ (Some p)
                   (well_formed_parse u _ Hparse))) as Hre.
  change (@URL_parse Sample.host
            (URL_toString (@with_params Sample.host fullUrl (Some p)))
          = Some (@with_params Sample.host fullUrl (Some p))) in Hre.
  change (fold_left set_param p fullUrl)
    with (@with_params Sample.host fullUrl (Some p)).
  rewrite Hre. now rewrite with_params_fixed.
Qed.

(** On the sample host the query that is parsed back from the composed
    string names the key of an absent entry only if the base URL or a
    defined entry does. *)
Corollary sample_buildUrl_omits (u : string) (p : Params) (fullUrl : URL)
  (s k : string) :
  Sample.parse_url u = Some fullUrl ->
  @buildUrl Sample.host u (Some p) = Normal s ->
  In (k, PUndefined) p ->
  exists composed,
    Sample.parse_url s = Some composed
    /\ (In k (map fst (url_searchParams composed)) ->
        In k (map fst (url_searchParams fullUrl))
        \/ exists v, v <> PUndefined /\ In (k, v) p).
Proof.
  intros Hparse Hs _. unfold buildUrl in Hs.
  change (@URL_parse Sample.host u) with (Sample.parse_url u) in Hs.
  rewrite Hparse in Hs. injection Hs as <-.
  exists (@with_params Sample.host fullUrl (Some p)). split.
  - apply well_formed_reparse, well_formed_params.
    now apply (well_formed_parse u).
  - apply with_params_names.
Qed.

(* ================================================================= *)
(** ** More on the URL composer *)

Lemma set_tuple_fresh (k v : string) (l : list (string * string)) :
  ~ In k (map fst l) -> set_tuple k v l = l ++ [(k, v)].
Proof.
  induction l as [| [n x] l IH]; simpl; auto.
  intros H. name_cases n k; [tauto |]. rewrite IH; tauto.
Qed.

Lemma apply_sets_fresh (entries l : list (string * string)) :
  NoDup (map fst entries) ->
  (forall k, In k (map fst entries) -> ~ In k (map fst l)) ->
  apply_sets entries l = l ++ entries.
Proof.
  revert l. induction entries as [| [k v] entries IH]; intros l Hnd Hfresh.
  - simpl. now rewrite app_nil_r.
  - inversion Hnd as [| ? ? Hk Hnd']; subst. unfold apply_sets in *. simpl.
    rewrite set_tuple_fresh by (apply Hfresh; now left).
    rewrite IH; auto.
    + now rewrite <- app_assoc.
    + intros n Hn. rewrite map_app, in_app_iff. simpl.
      intros [H | [<- | []]]; [| contradiction].
      apply (Hfresh n); auto. now right.
Qed.

Lemma without_names_remove (names : list string) (k : string)
  (l : list (string * string)) :
  In k names ->
  without_names names (remove_name k l) = without_names names l.
Proof.
  intros Hk. induction l as [| [n x] l IH]; simpl; auto.
  name_cases n k.
  - assert (existsb (String.eqb k) names = true) as ->; auto.
    apply existsb_exists. exists k. split; auto. apply String.eqb_refl.
  - now rewrite IH.
Qed.

Lemma without_names_set (names : list string) (k v : string)
  (l : list (string * string)) :
  In k names ->
  without_names names (set_tuple k v l) = without_names names l.
Proof.
  intros Hk.
  assert (Hex : existsb (String.eqb k) names = true).
  { apply existsb_exists. exists k. split; auto. apply String.eqb_refl. }
  induction l as [| [n x] l IH]; simpl.
  - now rewrite Hex.
  - name_cases n k.
    + rewrite Hex. simpl. now apply without_names_remove.
    + now rewrite IH.
Qed.

Lemma without_names_sets (names : list string)
  (entries l : list (string * string)) :
  (forall k, In k (map fst entries) -> In k names) ->
  without_names names (apply_sets entries l) = without_names names l.
Proof.
  revert l. induction entries as [| [k v] entries IH]; intros l Hin; auto.
  unfold apply_sets in *. simpl. rewrite IH.
  - apply without_names_set, Hin. now left.
  - intros n Hn. apply Hin. now right.
Qed.

Section UrlComposerMore.

Context {host : Platform}.

Lemma set_param_all_undefined (u : URL) (p : Params) :
  (forall k v, In (k, v) p -> v = PUndefined) ->
  fold_left set_param p u = u.
Proof.
  revert u. induction p as [| [k v] p IH]; intros u Hp; simpl; auto.
  rewrite (Hp k v) by now left. simpl. apply IH.
  intros n x Hin. apply (Hp n x). now right.
Qed.

Lemma defined_entries_NoDup (p : Params) :
  NoDup (map fst p) -> NoDup (map fst (defined_entries p)).
Proof.
  induction p as [| [k v] p IH]; simpl; [constructor |].
  intros H. inversion H as [| ? ? Hk Hnd]; subst.
  assert (Hfresh : ~ In k (map fst (defined_entries p))).
  { intros Hin. apply defined_entries_names in Hin.
    destruct Hin as (x & _ & Hin). apply Hk, in_map_iff.
    now exists (k, x). }
  destruct v; simpl; auto; constructor; auto.
Qed.

(** X1.  Without a defined entry ([params] absent, empty, or all its
    values [undefined]) no [set] is made: [buildUrl] returns the parsed URL
    as the serializer writes it, its query untouched. *)
Theorem buildUrl_untouched (path : string) (params : option Params)
  (fullUrl : URL) :
  URL_parse path = Some fullUrl ->
  (forall p k v, params = Some p -> In (k, v) p -> v = PUndefined) ->
  buildUrl path params = Normal (URL_toString fullUrl).
Proof.
  intros Hparse Hp. unfold buildUrl. rewrite Hparse.
  destruct params as [p |]; simpl; auto.
  rewrite set_param_all_undefined; auto.
  intros k v. now apply Hp.
Qed.

(** X2.  [buildUrl] changes the query alone: the composed string is the
    base of the parsed URL, then a query that is either the one of the
    parsed URL or the serialization of a list of tuples, then the fragment
    of the parsed URL. *)
Theorem buildUrl_frame (path : string) (params : option Params)
  (fullUrl : URL) :
  URL_parse path = Some fullUrl ->
  exists query,
    buildUrl path params
    = Normal (url_base fullUrl
              ++ match query with Some q => "?" ++ q | None => "" end
              ++ match url_fragment fullUrl with
                 | Some f => "#" ++ f
                 | None => ""
                 end)%string
    /\ (query = url_query fullUrl \/ exists l, query = query_of l).
Proof.
  intros Hparse. unfold buildUrl. rewrite Hparse.
  destruct params as [p |]; simpl.
  - exists (url_query (fold_left set_param p fullUrl)).
    destruct (with_params_frame fullUrl p) as (Hb & Hf & _).
    unfold URL_toString. rewrite Hb, Hf. split; auto.
    rewrite with_params_query. destruct (defined_entries p); eauto.
  - exists (url_query fullUrl). auto.
Qed.

(** X3.  Parameters whose keys are new to the URL are appended after the
    tuples the URL has, in the order of [Object.entries]; entries whose
    value is [undefined] leave no trace. *)
Theorem buildUrl_appends_fresh (path : string) (p : Params) (fullUrl : URL) :
  URL_parse path = Some fullUrl ->
  NoDup (map fst p) ->
  (forall k v, In (k, v) p -> v <> PUndefined ->
               ~ In k (map fst (url_searchParams fullUrl))) ->
  buildUrl path (Some p)
  = Normal (URL_toString (with_params fullUrl (Some p)))
  /\ url_searchParams (with_params fullUrl (Some p))
     = url_searchParams fullUrl ++ defined_entries p.
Proof.
  intros Hparse Hnd Hfresh. unfold buildUrl. rewrite Hparse.
  split; [reflexivity |]. simpl.
  destruct (with_params_frame fullUrl p) as (_ & _ & ->).
  apply apply_sets_fresh.
  - now apply defined_entries_NoDup.
  - intros k Hk. apply defined_entries_names in Hk.
    destruct Hk as (v & Hv & Hin). now apply (Hfresh k v).
Qed.

(** On a URL that has neither query nor fragment and that the parser
    leaves as written, with at least one defined entry, the composed
    string is the path, a question mark and the serialization of the
    defined entries. *)
Lemma buildUrl_bare (path : string) (p : Params) :
  URL_parse path = Some (mkURL path None None []) ->
  NoDup (map fst p) ->
  defined_entries p <> [] ->
  urlencoded_serialize (defined_entries p) <> "" ->
  buildUrl path (Some p)
  = Normal (path ++ "?" ++ urlencoded_serialize (defined_entries p))%string.
Proof.
  intros Hparse Hnd Hsome Hser. unfold buildUrl. rewrite Hparse. simpl.
  pose proof (with_params_query (mkURL path None None []) p) as Hq.
  destruct (with_params_frame (mkURL path None None []) p) as (Hb & Hf & Hl).
  rewrite apply_sets_fresh in Hl by (auto using defined_entries_NoDup).
  simpl in Hl, Hb, Hf. rewrite Hl in Hq.
  destruct (defined_entries p) as [| e es] eqn:He; [congruence |].
  unfold query_of in Hq.
  apply String.eqb_neq in Hser. rewrite Hser in Hq.
  unfold URL_toString. rewrite Hb, Hf, Hq. simpl.
  f_equal. f_equal. f_equal. clear. induction (urlencoded_serialize (e :: es));
    simpl; congruence.
Qed.

Lemma defined_entries_strings (record : list (string * string)) :
  defined_entries (string_params record) = record.
Proof.
  induction record as [| [k v] record IH]; simpl; [reflexivity |].
  f_equal. exact IH.
Qed.

(** X4.  Take a URL that has neither query nor fragment and that the
    parser leaves as written, and a record of strings with distinct keys
    and at least one entry, whose serialization is not empty.  Then
    [buildUrl] with that record as [params] returns the URL the [fetch]
    side of the comparison writes, [url + '?' + new
    URLSearchParams(record)].  (For the empty record the two differ: the
    idiom leaves a bare question mark, [buildUrl] none.) *)
Theorem buildUrl_is_fetch_idiom (path : string)
  (record : list (string * string)) :
  URL_parse path = Some (mkURL path None None []) ->
  NoDup (map fst record) ->
  record <> [] ->
  urlencoded_serialize record <> "" ->
  buildUrl path (Some (string_params record))
  = Normal (fetch_idiom_url path record).
Proof.
  intros Hparse Hnd Hsome Hser. unfold fetch_idiom_url.
  rewrite <- (defined_entries_strings record) at 2.
  apply buildUrl_bare; auto.
  - unfold string_params. now rewrite map_map.
  - now rewrite defined_entries_strings.
  - now rewrite defined_entries_strings.
Qed.

(** X5.  The tuples of the URL whose name is not the key of a defined
    entry come through untouched, in their order. *)
Theorem buildUrl_keeps_others (path : string) (p : Params) (fullUrl : URL) :
  URL_parse path = Some fullUrl ->
  buildUrl path (Some p)
  = Normal (URL_toString (with_params fullUrl (Some p)))
  /\ without_names (map fst (defined_entries p))
       (url_searchParams (with_params fullUrl (Some p)))
     = without_names (map fst (defined_entries p))
         (url_searchParams fullUrl).
Proof.
  intros Hparse. unfold buildUrl. rewrite Hparse.
  split; [reflexivity |]. simpl.
  destruct (with_params_frame fullUrl p) as (_ & _ & ->).
  now apply without_names_sets.
Qed.

(** X6.  Composing in two steps is composing once with the entries of the
    first step followed by those of the second, when re-parsing the first
    composed URL gives back the record that was serialized. *)
Theorem buildUrl_composes (u : string) (p q : Params) (fullUrl : URL) :
  URL_parse u = Some fullUrl ->
  URL_parse (URL_toString (with_params fullUrl (Some p)))
  = Some (with_params fullUrl (Some p)) ->
  exists s,
    buildUrl u (Some p) = Normal s
    /\ buildUrl s (Some q) = buildUrl u (Some (p ++ q)).
Proof.
  intros Hparse Hre. exists (URL_toString (with_params fullUrl (Some p))).
  unfold buildUrl. rewrite Hparse, Hre. split; [reflexivity |].
  simpl. now rewrite fold_left_app.
Qed.

End UrlComposerMore.

(** A mapping whose only value is absent, on the users URL. *)
Lemma buildUrl_untouched_witness :
  @URL_parse Sample.host Sample.users_url = Some Sample.users_parsed
  /\ @buildUrl Sample.host Sample.users_url (Some [("skip", PUndefined)])
     = Normal Sample.users_url.
Proof.
  assert (Hparse : @URL_parse Sample.host Sample.users_url
                   = Some Sample.users_parsed) by reflexivity.
  split; [exact Hparse |].
  apply (@buildUrl_untouched Sample.host Sample.users_url
           (Some [("skip", PUndefined)]) Sample.users_parsed Hparse).
  intros p k v Hp Hin. injection Hp as <-.
  destruct Hin as [H | []]. now injection H as _ <-.
Defined.

(** The users URL keeps its base and its fragment. *)
Lemma buildUrl_frame_witness :
  @URL_parse Sample.host Sample.users_url = Some Sample.users_parsed
  /\ exists query,
      @buildUrl Sample.host Sample.users_url (Some Sample.users_params)
      = Normal ("https://api.example.com/users"
                ++ match query with Some q => "?" ++ q | None => "" end
                ++ "#top")%string.
Proof.
  assert (Hparse : @URL_parse Sample.host Sample.users_url
                   = Some Sample.users_parsed) by reflexivity.
  split; [exact Hparse |].
  destruct (@buildUrl_frame Sample.host Sample.users_url
              (Some Sample.users_params) Sample.users_parsed Hparse)
    as (query & Hq & _).
  exists query. exact Hq.
Defined.

(** Four fresh keys, one of them absent, after the [x] of the users URL. *)
Lemma buildUrl_appends_fresh_witness :
  @URL_parse Sample.host Sample.users_url = Some Sample.users_parsed
  /\ NoDup (map fst Sample.users_params)
  /\ url_searchParams
       (@with_params Sample.host Sample.users_parsed
          (Some Sample.users_params))
     = [("x", "1"); ("role", "admin"); ("active", "true"); ("page", "2")].
Proof.
  assert (Hparse : @URL_parse Sample.host Sample.users_url
                   = Some Sample.users_parsed) by reflexivity.
  assert (Hnd : NoDup (map fst Sample.users_params)).
  { simpl. repeat constructor; simpl; intuition discriminate. }
  split; [exact Hparse | split; [exact Hnd |]].
  refine (proj2 (@buildUrl_appends_fresh Sample.host Sample.users_url
                   Sample.users_params Sample.users_parsed Hparse Hnd _)).
  intros k v Hin _ [H | []]. subst k.
  simpl in Hin. intuition discriminate.
Defined.

(** The GET of the comparison: one parameter on a bare URL. *)
Lemma buildUrl_is_fetch_idiom_witness :
  @URL_parse Sample.host "https://api.example.com/users"
  = Some (mkURL "https://api.example.com/users" None None [])
  /\ NoDup (map fst [("role", "admin")])
  /\ [("role", "admin")] <> ([] : list (string * string))
  /\ @urlencoded_serialize Sample.host [("role", "admin")] <> ""
  /\ @buildUrl Sample.host "https://api.example.com/users"
       (Some [("role", PString "admin")])
     = Normal "https://api.example.com/users?role=admin"
  /\ @fetch_idiom_url Sample.host "https://api.example.com/users"
       [("role", "admin")]
     = "https://api.example.com/users?role=admin".
Proof.
  assert (Hparse : @URL_parse Sample.host "https://api.example.com/users"
                   = Some (mkURL "https://api.example.com/users" None None []))
    by reflexivity.
  assert (Hnd : NoDup (map fst [("role", "admin")])).
  { simpl. repeat constructor. simpl. tauto. }
  assert (Hsome : [("role", "admin")] <> ([] : list (string * string)))
    by discriminate.
  assert (Hser : @urlencoded_serialize Sample.host [("role", "admin")] <> "")
    by discriminate.
  split; [exact Hparse | split; [exact Hnd | split; [exact Hsome |]]].
  split; [exact Hser | split; [| reflexivity]].
  exact (@buildUrl_is_fetch_idiom Sample.host "https://api.example.com/users"
           [("role", "admin")] Hparse Hnd Hsome Hser).
Defined.

(** The [x] of the users URL comes through. *)
Lemma buildUrl_keeps_others_witness :
  @URL_parse Sample.host Sample.users_url = Some Sample.users_parsed
  /\ without_names ["role"; "active"; "page"]
       (url_searchParams
          (@with_params Sample.host Sample.users_parsed
             (Some Sample.users_params)))
     = [("x", "1")].
Proof.
  assert (Hparse : @URL_parse Sample.host Sample.users_url
                   = Some Sample.users_parsed) by reflexivity.
  split; [exact Hparse |].
  exact (proj2 (@buildUrl_keeps_others Sample.host Sample.users_url
                  Sample.users_params Sample.users_parsed Hparse)).
Defined.

(** The filter first and the page second, or both at once. *)
Lemma buildUrl_composes_witness :
  @URL_parse Sample.host Sample.users_url = Some Sample.users_parsed
  /\ @URL_parse Sample.host
       (URL_toString
          (@with_params Sample.host Sample.users_parsed
             (Some Sample.filter_params)))
     = Some (@with_params Sample.host Sample.users_parsed
               (Some Sample.filter_params))
  /\ exists s,
      @buildUrl Sample.host Sample.users_url (Some Sample.filter_params)
      = Normal s
      /\ @buildUrl Sample.host s (Some [("page", PNumber (Sample.number_of_Z 2))])
         = @buildUrl Sample.host Sample.users_url
             (Some (Sample.filter_params
                    ++ [("page", PNumber (Sample.number_of_Z 2))])).
Proof.
  assert (Hparse : @URL_parse Sample.host Sample.users_url
                   = Some Sample.users_parsed) by reflexivity.
  assert (Hre : @URL_parse Sample.host
                  (URL_toString
                     (@with_params Sample.host Sample.users_parsed
                        (Some Sample.filter_params)))
                = Some (@with_params Sample.host Sample.users_parsed
                          (Some Sample.filter_params))) by reflexivity.
  split; [exact Hparse | split; [exact Hre |]].
  exact (@buildUrl_composes Sample.host Sample.users_url Sample.filter_params
           [("page", PNumber (Sample.number_of_Z 2))] Sample.users_parsed
           Hparse Hre).
Defined.

(* ================================================================= *)
(** ** More on [request] *)



Lemma indexed_keys {A : Type} (i : nat) (l : list A) (k : string) :
  In k (map fst (indexed i l)) ->
  exists j, (i <= j < i + length l)%nat /\ k = index_key j.
Proof.
  revert i. induction l as [| x l IH]; intros i; simpl; [tauto |].
  intros [<- | H].
  - exists i. split; [lia | reflexivity].
  - destruct (IH _ H) as (j & Hj & ->). exists j. split; [lia | reflexivity].
Qed.

Lemma index_key_not_header (i : nat) : index_key i <> "Content-Type".
Proof.
  unfold index_key. destruct (Nat.to_uint i); simpl; discriminate.
Qed.

Section RequestMore.

Context {host : Platform}.

(** X7.  A rejection of [fetch] is the rejection of the call: [fetch] was
    called once, nothing was decoded, and no result is returned. *)
Theorem fetch_rejection_propagates (method : HttpMethod) (path : string)
  (options : option RequestOptions.t) (url : string) (init : JsObj)
  (e : JsError) :
  dispatched method path options url init ->
  fetch url init = Throw e ->
  request method path options = ([FetchCall url init], Throw e).
Proof.
  intros Hd Hf. now rewrite (request_dispatched _ _ _ _ _ Hd), Hf.
Qed.


(** X9.  The platform calls of a request, in order, by what each step
    gives.  When the URL does not compose, or composes and the body does
    not encode, there is no call and the request rejects with that
    error.  Otherwise there is exactly one [fetch], with the composed URL
    and the init of lines 67 to 75, followed by one [json()] on the
    response that [fetch] resolved with exactly when [fetch] resolved and
    the content type of the response claims JSON.  Nothing is decoded
    before [fetch] resolved, and nothing twice. *)
Theorem request_calls_shape (method : HttpMethod) (path : string)
  (options : option RequestOptions.t) :
  let o := default_options options in
  let init finalBody :=
    fetch_init method
      (merged_headers (RequestOptions.body o) (RequestOptions.headers o))
      finalBody
      (obj_rest ["params"; "body"; "headers"] (RequestOptions.others o)) in
  calls (request method path options)
  = match buildUrl path (RequestOptions.params o) with
    | Throw _ => []
    | Normal url =>
        match final_body (RequestOptions.body o) with
        | Throw _ => []
        | Normal finalBody =>
            FetchCall url (init finalBody)
            :: match fetch url (init finalBody) with
               | Normal r =>
                   if claims_json
                        (Headers_get (Response.headers r) "content-type")
                   then [JsonCall r]
                   else []
               | Throw _ => []
               end
        end
    end
  /\ (forall e,
        buildUrl path (RequestOptions.params o) = Throw e ->
        settled (request method path options) = Throw e)
  /\ (forall url e,
        buildUrl path (RequestOptions.params o) = Normal url ->
        final_body (RequestOptions.body o) = Throw e ->
        settled (request method path options) = Throw e).
Proof.
  intros o init. subst o. split; [| split].
  - destruct (buildUrl path _) as [url | e] eqn:Hurl.
    + destruct (final_body _) as [finalBody | e] eqn:Hbody.
      * rewrite (request_dispatched method path options url (init finalBody))
          by (exists finalBody; repeat split; auto).
        destruct (fetch url _) as [r | e]; [| reflexivity].
        now destruct (claims_json _).
      * now rewrite (request_body_throws _ _ _ _ _ Hurl Hbody).
    + now rewrite (request_url_throws _ _ _ _ Hurl).
  - intros e Hurl. now rewrite (request_url_throws _ _ _ _ Hurl).
  - intros url e Hurl Hbody.
    now rewrite (request_body_throws _ _ _ _ _ Hurl Hbody).
Qed.

(** X10.  The [init] of a request that reaches the transport carries the
    merged headers as a plain object under [headers], and under [method]
    the name of the verb, unless the options have an own [method]: the
    rest of the options is spread last, so that one wins. *)
Theorem init_method_and_headers (method : HttpMethod) (path : string)
  (options : option RequestOptions.t) (url : string) (init : JsObj) :
  dispatched method path options url init ->
  NoDup (map fst (RequestOptions.others (default_options options))) ->
  obj_get "method" init
  = match obj_get "method"
            (RequestOptions.others (default_options options)) with
    | Some v => Some v
    | None => Some (JsString (method_name method))
    end
  /\ obj_get "headers" init
     = Some (JsObject
               (merged_headers
                  (RequestOptions.body (default_options options))
                  (RequestOptions.headers (default_options options)))).
Proof.
  intros (finalBody & _ & _ & ->) Hnd. unfold fetch_init. split.
  - rewrite obj_get_spread by now apply obj_rest_NoDup.
    rewrite obj_get_rest by (simpl; intuition discriminate).
    now destruct (obj_get "method" _).
  - rewrite obj_get_spread_absent; [reflexivity |].
    intros H. apply obj_rest_keys in H. simpl in H. tauto.
Qed.



End RequestMore.

(* ================================================================= *)
(** ** More on the merged headers *)

(** X13.  With a plain record of headers, every header of the caller is
    in the merged headers with its value, and the injected
    [Content-Type] is there exactly when the body is JSON and the record
    has no key spelled [Content-Type]; keys are compared as written, so a
    [content-type] of the caller leaves the default beside it. *)
Theorem merged_headers_record_lookup (body : JsValue)
  (entries : list (string * string)) (k : string) :
  NoDup (map fst entries) ->
  obj_get k (merged_headers body (Some (HeadersRecord entries)))
  = match find (fun nv => fst nv =? k) entries with
    | Some nv => Some (JsString (snd nv))
    | None =>
        if isJsonBody body && (k =? "Content-Type")
        then Some (JsString "application/json")
        else None
    end.
Proof.
  intros Hnd. unfold merged_headers. simpl own_properties.
  rewrite obj_get_spread by now rewrite map_map.
  rewrite obj_get_record.
  destruct (find (fun nv => fst nv =? k) entries) as [nv |]; simpl; auto.
  rewrite (String.eqb_sym k).
  destruct (isJsonBody body); simpl; auto.
Qed.

(** X14.  Headers given as a [Headers] object do not reach the merged
    headers at all, and headers given as an array of pairs reach them
    only as numbered properties: under every header name the merged
    headers hold what they hold without caller headers, the injected
    [Content-Type] included. *)
Theorem merged_headers_non_record (body : JsValue) :
  (forall h,
     merged_headers body (Some (HeadersObject h)) = merged_headers body None)
  /\ (forall pairs k,
        (forall i, (i < length pairs)%nat -> k <> index_key i) ->
        obj_get k (merged_headers body (Some (HeadersPairs pairs)))
        = obj_get k (merged_headers body None))
  /\ (forall pairs,
        obj_get "Content-Type"
          (merged_headers body (Some (HeadersPairs pairs)))
        = if isJsonBody body
          then Some (JsString "application/json")
          else None).
Proof.
  assert (Hpairs : forall pairs k,
             (forall i, (i < length pairs)%nat -> k <> index_key i) ->
             obj_get k (merged_headers body (Some (HeadersPairs pairs)))
             = obj_get k (merged_headers body None)).
  { intros pairs k Hk. unfold merged_headers. simpl own_properties.
    apply obj_get_spread_absent. intros Hin.
    apply indexed_keys in Hin. destruct Hin as (j & Hj & ->).
    rewrite length_map in Hj. apply (Hk j); [lia | reflexivity]. }
  split; [reflexivity | split; [exact Hpairs |]].
  intros pairs. rewrite Hpairs.
  - unfold merged_headers. now destruct (isJsonBody body).
  - intros i _ H. now apply (index_key_not_header i).
Qed.

(** The sample server is down. *)
Lemma fetch_rejection_propagates_witness :
  @dispatched Sample.host GET "https://api.example.com/down" None
    "https://api.example.com/down" (Sample.plain_init "GET")
  /\ @fetch Sample.host "https://api.example.com/down"
       (Sample.plain_init "GET")
     = Throw (TypeError "Failed to fetch")
  /\ @request Sample.host GET "https://api.example.com/down" None
     = ([FetchCall "https://api.example.com/down" (Sample.plain_init "GET")],
        Throw (TypeError "Failed to fetch")).
Proof.
  assert (Hd : @dispatched Sample.host GET "https://api.example.com/down"
                 None "https://api.example.com/down"
                 (Sample.plain_init "GET")) by run_sample.
  split; [exact Hd | split; [reflexivity |]].
  exact (@fetch_rejection_propagates Sample.host _ _ _ _ _ _ Hd eq_refl).
Defined.


(** A [put] with pass-through options and no own [method]. *)
Lemma init_method_and_headers_witness :
  @dispatched Sample.host PUT Sample.users_url (Some Sample.passing)
    Sample.composed_url Sample.passing_init
  /\ NoDup (map fst (RequestOptions.others Sample.passing))
  /\ obj_get "method" Sample.passing_init = Some (JsString "PUT")
  /\ obj_get "headers" Sample.passing_init
     = Some (JsObject [("Content-Type", JsString "application/json")]).
Proof.
  assert (Hd : @dispatched Sample.host PUT Sample.users_url
                 (Some Sample.passing) Sample.composed_url
                 Sample.passing_init) by run_sample.
  assert (Hnd : NoDup (map fst (RequestOptions.others Sample.passing))).
  { simpl. repeat constructor; simpl; intuition discriminate. }
  split; [exact Hd | split; [exact Hnd |]].
  exact (@init_method_and_headers Sample.host _ _ _ _ _ Hd Hnd).
Defined.



(** A lower-case [content-type] of the caller beside the default. *)
Lemma merged_headers_record_lookup_witness :
  NoDup (map fst [("content-type", "text/plain"); ("X-Id", "1")])
  /\ obj_get "Content-Type"
       (merged_headers Sample.bob
          (Some (HeadersRecord [("content-type", "text/plain"); ("X-Id", "1")])))
     = Some (JsString "application/json")
  /\ obj_get "content-type"
       (merged_headers Sample.bob
          (Some (HeadersRecord [("content-type", "text/plain"); ("X-Id", "1")])))
     = Some (JsString "text/plain").
Proof.
  assert (Hnd : NoDup (map fst [("content-type", "text/plain"); ("X-Id", "1")])).
  { simpl. repeat constructor; simpl; intuition discriminate. }
  split; [exact Hnd | split].
  - exact (merged_headers_record_lookup Sample.bob _ "Content-Type" Hnd).
  - exact (merged_headers_record_lookup Sample.bob _ "content-type" Hnd).
Defined.
